(** * Huffman stream engine: [util.py]

    A shallow embedding of [read_tree], [decode_byte], [decompress],
    [write_tree] and [compress] of [huffman/util.py], together with the
    collaborators they call ([bitio], [huffman], [pickle]), and the
    properties of the engine proved over it. *)

From Stdlib Require Import ZArith Strings.Byte String.
From stdpp Require Import base option list gmap.

Local Open Scope Z_scope.

(** ** Python values and exceptions *)

(** The exceptions that can reach the functions of [util.py]. *)
Inductive exn : Type :=
  | EOFError
  | KeyError
  | NameError
  | UnpicklingError.

(** The result of a call: a value, or a raised exception. *)
Inductive result (A : Type) : Type :=
  | Ok (a : A)
  | Raise (e : exn).
Arguments Ok {A} a.
Arguments Raise {A} e.

(** ** File streams *)

(** A stream opened for reading: its bytes and the read position. *)
Record istream : Type := IStream { content : list byte; pos : nat }.

(** [stream.seek(n)] *)
Definition seek (n : nat) (s : istream) : istream :=
  {| content := content s; pos := n |}.

(** [stream.read(1)]: the byte at the position, which then advances; nothing
    at the end of the stream. *)
Definition read1 (s : istream) : option byte * istream :=
  match content s !! pos s with
  | Some b => (Some b, {| content := content s; pos := S (pos s) |})
  | None => (None, s)
  end.

(** The bytes not read yet. *)
Definition unread (s : istream) : list byte := drop (pos s) (content s).

(** A stream opened for writing is the list of the bytes written so far;
    [stream.write(b)] appends. *)
Definition ostream : Type := list byte.

(** ** [huffman]: trees and the encoding table *)

(** Modelled from the spec: the tree classes of the [huffman] module
    ([TreeLeaf], [TreeBranch]) are not in [util.py]. A leaf holds a byte
    symbol (a Python int) or [None], the end-of-stream sentinel; an internal
    node owns a left and a right child. *)
Inductive tree : Type :=
  | TreeLeaf (value : option Z)
  | TreeBranch (left right : tree).

(** Modelled from the spec: [huffman.make_encoding_table] is not in
    [util.py]. The walk is depth first from the root, the path taken
    accumulates one bit per edge ([false] to the left, [true] to the right),
    and a leaf records [value -> path] in the table (a Python dict: a later
    leaf with the same value replaces the entry). *)
Fixpoint recurse (t : tree) (path : list bool)
    (table : gmap (option Z) (list bool)) : gmap (option Z) (list bool) :=
  match t with
  | TreeLeaf value => <[value := path]> table
  | TreeBranch l r =>
      recurse r (path ++ [true]) (recurse l (path ++ [false]) table)
  end.

Definition make_encoding_table (t : tree) : gmap (option Z) (list bool) :=
  recurse t [] ∅.

(** The values held by the leaves of a tree. *)
Fixpoint leaf_values (t : tree) : list (option Z) :=
  match t with
  | TreeLeaf value => [value]
  | TreeBranch l r => leaf_values l ++ leaf_values r
  end.

(** ** [bitio]: bit reader and bit writer *)

(** The eight bits of a byte, most significant first. *)
Definition bits_of_byte (b : byte) : list bool :=
  let '(b0, (b1, (b2, (b3, (b4, (b5, (b6, b7))))))) := Byte.to_bits b in
  [b7; b6; b5; b4; b3; b2; b1; b0].

(** The byte made of up to eight bits, most significant first; positions
    past the end of the list are 0. *)
Definition byte_of_bits (l : list bool) : byte :=
  Byte.of_bits
    (nth 7 l false, (nth 6 l false, (nth 5 l false, (nth 4 l false,
    (nth 3 l false, (nth 2 l false, (nth 1 l false, nth 0 l false))))))).

(** The value of a byte as a Python int. *)
Definition byte_value (b : byte) : Z := Z.of_N (Byte.to_N b).

(** Modelled from the spec: [bitio.BitReader] is not in [util.py]. The
    reader wraps a stream and holds the bits of the current byte that were
    not handed out yet. *)
Record BitReader : Type := { r_pending : list bool }.

Definition new_BitReader : BitReader := {| r_pending := [] |}.

(** Modelled from the spec: [readbit() -> 0|1], which fails (Python's
    [EOFError]) when the byte source is exhausted. Bits leave a byte most
    significant first, the order in which [writebit] packs them. *)
Definition readbit (r : BitReader) (s : istream)
    : result bool * BitReader * istream :=
  match r_pending r with
  | b :: bs => (Ok b, {| r_pending := bs |}, s)
  | [] =>
      match read1 s with
      | (Some byte, s') =>
          match bits_of_byte byte with
          | b :: bs => (Ok b, {| r_pending := bs |}, s')
          | [] => (Raise EOFError, r, s')  (* not taken: a byte has eight bits *)
          end
      | (None, s') => (Raise EOFError, r, s')
      end
  end.

(** Modelled from the spec: [readbits(n)], the unsigned integer made of the
    next [n] bits, which fails when fewer than [n] bits remain. *)
Fixpoint readbits_from (v : Z) (n : nat) (r : BitReader) (s : istream)
    : result Z * BitReader * istream :=
  match n with
  | O => (Ok v, r, s)
  | S n' =>
      match readbit r s with
      | (Ok b, r', s') => readbits_from (Z.lor (Z.shiftl v 1) (Z.b2z b)) n' r' s'
      | (Raise e, r', s') => (Raise e, r', s')
      end
  end.

Definition readbits (n : nat) (r : BitReader) (s : istream)
    : result Z * BitReader * istream :=
  readbits_from 0 n r s.

(** Modelled from the spec: [bitio.BitWriter] is not in [util.py]. The
    writer wraps a stream and buffers the bits of the partial byte. *)
Record BitWriter : Type := { w_pending : list bool }.

Definition new_BitWriter : BitWriter := {| w_pending := [] |}.

(** Modelled from the spec: [writebit(0|1)]; a byte is emitted to the
    stream once its eight bits are there. *)
Definition writebit (b : bool) (w : BitWriter) (out : ostream)
    : BitWriter * ostream :=
  let bits := w_pending w ++ [b] in
  if decide (length bits = 8%nat)
  then ({| w_pending := [] |}, out ++ [byte_of_bits bits])
  else ({| w_pending := bits |}, out).

(** Modelled from the spec: [writebits(value, n)], the inverse of
    [readbits]: the low [n] bits of [value], most significant first. *)
Fixpoint writebits (value : Z) (n : nat) (w : BitWriter) (out : ostream)
    : BitWriter * ostream :=
  match n with
  | O => (w, out)
  | S n' =>
      let '(w', out') := writebit (Z.testbit value (Z.of_nat n')) w out in
      writebits value n' w' out'
  end.

(** Modelled from the spec: [flush()] pads the partial byte with 0 bits up
    to the byte boundary and emits it; nothing happens when nothing is
    pending. *)
Definition flush (w : BitWriter) (out : ostream) : BitWriter * ostream :=
  match w_pending w with
  | [] => (w, out)
  | bits => ({| w_pending := [] |}, out ++ [byte_of_bits bits])
  end.

(** [for item in code: my_bit_writer.writebit(item)] *)
Fixpoint write_code (code : list bool) (w : BitWriter) (out : ostream)
    : BitWriter * ostream :=
  match code with
  | [] => (w, out)
  | item :: code' =>
      let '(w', out') := writebit item w out in
      write_code code' w' out'
  end.

(** ** [util.py] *)

(** Where a call of [compress] or [decompress] leaves the objects it worked
    on: what it returned or raised, the stream it read and the reader on it,
    the stream it wrote and the writer on it, and what it printed. *)
Record final : Type := Final {
  returned : result unit;
  in_stream : istream;
  reader : BitReader;
  writer : BitWriter;
  out_stream : ostream;
  printed : list string
}.

(** [decode_byte(tree, bitreader)]: the [while] loop descends one child per
    iteration, so the recursion is on the tree. An [EOFError] of [readbit]
    is caught and [None] is returned. *)
Fixpoint decode_byte (node : tree) (bitreader : BitReader) (s : istream)
    : result (option Z) * BitReader * istream :=
  match node with
  | TreeLeaf value => (Ok value, bitreader, s)
  | TreeBranch l r =>
      match readbit bitreader s with
      | (Ok current_bit, bitreader', s') =>
          if current_bit
          then decode_byte r bitreader' s'
          else decode_byte l bitreader' s'
      | (Raise EOFError, bitreader', s') => (Ok None, bitreader', s')
      | (Raise e, bitreader', s') => (Raise e, bitreader', s')
      end
  end.

(** The [while value != None] loop of [decompress], entered with the value
    of the first [decode_byte]; [fuel] bounds the number of iterations. *)
Fixpoint decode_loop (fuel : nat) (tree_root : tree) (value : option Z)
    (my_bit_reader : BitReader) (compressed : istream)
    (my_bit_writer : BitWriter) (uncompressed : ostream)
    : option (result unit * BitReader * istream * BitWriter * ostream) :=
  match value with
  | None => Some (Ok tt, my_bit_reader, compressed, my_bit_writer, uncompressed)
  | Some v =>
      match fuel with
      | O => None
      | S fuel' =>
          let '(my_bit_writer', uncompressed') :=
            writebits v 8 my_bit_writer uncompressed in
          match decode_byte tree_root my_bit_reader compressed with
          | (Ok value', my_bit_reader', compressed') =>
              decode_loop fuel' tree_root value' my_bit_reader' compressed'
                my_bit_writer' uncompressed'
          | (Raise e, my_bit_reader', compressed') =>
              Some (Raise e, my_bit_reader', compressed',
                    my_bit_writer', uncompressed')
          end
      end
  end.

(** The [while end_of_file != True] loop of [compress]; [fuel] bounds the
    number of iterations. [table[byte]] and [table[None]] raise [KeyError]
    when the key is absent, which [except EOFError] does not catch. *)
Fixpoint encode_loop (fuel : nat) (table : gmap (option Z) (list bool))
    (my_bit_reader : BitReader) (uncompressed : istream)
    (my_bit_writer : BitWriter) (compressed : ostream)
    : option (result unit * BitReader * istream * BitWriter * ostream) :=
  match fuel with
  | O => None
  | S fuel' =>
      match readbits 8 my_bit_reader uncompressed with
      | (Ok byte, my_bit_reader', uncompressed') =>
          match table !! Some byte with
          | Some code =>
              let '(my_bit_writer', compressed') :=
                write_code code my_bit_writer compressed in
              encode_loop fuel' table my_bit_reader' uncompressed'
                my_bit_writer' compressed'
          | None =>
              Some (Raise KeyError, my_bit_reader', uncompressed',
                    my_bit_writer, compressed)
          end
      | (Raise EOFError, my_bit_reader', uncompressed') =>
          match table !! None with
          | Some code =>
              let '(my_bit_writer', compressed') :=
                write_code code my_bit_writer compressed in
              Some (Ok tt, my_bit_reader', uncompressed',
                    my_bit_writer', compressed')
          | None =>
              Some (Raise KeyError, my_bit_reader', uncompressed',
                    my_bit_writer, compressed)
          end
      | (Raise e, my_bit_reader', uncompressed') =>
          Some (Raise e, my_bit_reader', uncompressed',
                my_bit_writer, compressed)
      end
  end.

Section Engine.

(** [pickle.dump] and [pickle.load] on trees: the description format is
    opaque to [util.py]. [pickle_load] reads at the stream's position and
    returns the object read ([None], or a tree) or raises. *)
Variable pickle_dump : tree -> list byte.
Variable pickle_load : istream -> result (option tree) * istream.

(** [read_tree(tree_stream)]. The handler of [EOFError] prints its message
    and then evaluates [NONE], a name that is bound nowhere: the
    [NameError] leaves the function. *)
Definition read_tree (tree_stream : istream)
    : result (option tree) * istream * list string :=
  let tree_stream := seek 0 tree_stream in
  match pickle_load tree_stream with
  | (Ok tree, tree_stream') => (Ok tree, tree_stream', [])
  | (Raise EOFError, tree_stream') =>
      (Raise NameError, tree_stream', ["Invalid Huffman Tree"%string])
  | (Raise e, tree_stream') => (Raise e, tree_stream', [])
  end.

(** [decompress(compressed, uncompressed)] *)
Definition decompress (fuel : nat) (compressed : istream)
    (uncompressed : ostream) : option final :=
  match read_tree compressed with
  | (Raise e, compressed', out) =>
      Some (Final (Raise e) compressed' new_BitReader new_BitWriter
              uncompressed out)
  | (Ok None, compressed', out) =>
      Some (Final (Ok tt) compressed' new_BitReader new_BitWriter
              uncompressed out)
  | (Ok (Some tree_root), compressed', out) =>
      let my_bit_reader := new_BitReader in
      let my_bit_writer := new_BitWriter in
      match decode_byte tree_root my_bit_reader compressed' with
      | (Raise e, my_bit_reader', compressed'') =>
          Some (Final (Raise e) compressed'' my_bit_reader' my_bit_writer
                  uncompressed out)
      | (Ok value, my_bit_reader', compressed'') =>
          match decode_loop fuel tree_root value my_bit_reader' compressed''
                  my_bit_writer uncompressed with
          | None => None
          | Some (Ok _, r, s, w, uncompressed') =>
              let '(w', uncompressed'') := flush w uncompressed' in
              Some (Final (Ok tt) s r w' uncompressed'' out)
          | Some (Raise e, r, s, w, uncompressed') =>
              Some (Final (Raise e) s r w uncompressed' out)
          end
      end
  end.

(** [write_tree(tree, tree_stream)] *)
Definition write_tree (t : tree) (tree_stream : ostream) : ostream :=
  tree_stream ++ pickle_dump t.

(** [compress(tree, uncompressed, compressed)]. The writer is created on
    [compressed] before the tree is written to that same stream; it emits
    nothing until its first full byte, so the tree comes first. *)
Definition compress (fuel : nat) (t : tree) (uncompressed : istream)
    (compressed : ostream) : option final :=
  let my_bit_writer := new_BitWriter in
  let compressed := write_tree t compressed in
  let my_bit_reader := new_BitReader in
  let table := make_encoding_table t in
  match encode_loop fuel table my_bit_reader uncompressed
          my_bit_writer compressed with
  | None => None
  | Some (Ok _, r, s, w, compressed') =>
      let '(w', compressed'') := flush w compressed' in
      Some (Final (Ok tt) s r w' compressed'' [])
  | Some (Raise e, r, s, w, compressed') =>
      Some (Final (Raise e) s r w compressed' [])
  end.

End Engine.

(** ** Vocabulary of the statements *)

(** A sequence of bytes as the sequence of its bits. *)
Definition bits_of_bytes (l : list byte) : list bool :=
  concat (bits_of_byte <$> l).

(** The bits a reader on a stream still has to hand out: the rest of the
    current byte, then the bytes not read yet. *)
Definition remaining_bits (r : BitReader) (s : istream) : list bool :=
  r_pending r ++ bits_of_bytes (unread s).

(** The node reached from a node along a path, left on 0 and right on 1;
    no node when the path goes on below a leaf. *)
Fixpoint descend (t : tree) (path : list bool) : option tree :=
  match path with
  | [] => Some t
  | b :: path' =>
      match t with
      | TreeLeaf _ => None
      | TreeBranch l r => descend (if b then r else l) path'
      end
  end.

(** The length of the longest path of a tree. *)
Fixpoint height (t : tree) : nat :=
  match t with
  | TreeLeaf _ => O
  | TreeBranch l r => S (Nat.max (height l) (height r))
  end.

(** The value [readbits] accumulates, from [v], over a sequence of bits. *)
Definition value_of_bits (v : Z) (bits : list bool) : Z :=
  foldl (fun acc b => Z.lor (Z.shiftl acc 1) (Z.b2z b)) v bits.

(** The byte [writebits(value, 8)] makes of a value: its low eight bits. *)
Definition low_byte (value : Z) : byte :=
  byte_of_bits ((fun i : nat => Z.testbit value (Z.of_nat i)) <$> [7; 6; 5; 4; 3; 2; 1; 0]%nat).

(** The code the table gives a byte of the input (no bits when it has no
    entry), and the codes of a sequence of bytes one after the other. *)
Definition code_of (table : gmap (option Z) (list bool)) (b : byte) : list bool :=
  default [] (table !! Some (byte_value b)).

Definition encode (table : gmap (option Z) (list bool)) (input : list byte)
    : list bool :=
  concat (code_of table <$> input).

(** Every byte of a sequence has an entry in the table. *)
Definition encodable (table : gmap (option Z) (list bool)) (input : list byte)
    : Prop :=
  Forall (fun b => is_Some (table !! Some (byte_value b))) input.

(** A payload spelled out: each symbol with the path that encodes it, a
    path of the tree from the root to a leaf holding that symbol. *)
Definition spelled (t : tree) (symbols : list (Z * list bool)) : Prop :=
  Forall (fun zp => descend t zp.2 = Some (TreeLeaf (Some zp.1))) symbols.

Definition payload_bits (symbols : list (Z * list bool)) : list bool :=
  concat (snd <$> symbols).

(** The bytes [decompress] writes for a sequence of decoded symbols. *)
Definition payload_bytes (symbols : list (Z * list bool)) : list byte :=
  (fun zp => low_byte zp.1) <$> symbols.

(** The input of [compress] spelled out with the codes of the table. *)
Definition symbols_of (table : gmap (option Z) (list bool)) (input : list byte)
    : list (Z * list bool) :=
  (fun b => (byte_value b, code_of table b)) <$> input.

(** A byte [decompress] can write for a tree: the low eight bits of a symbol
    held by one of its leaves. *)
Definition symbol_byte (t : tree) (b : byte) : Prop :=
  exists z, Some z ∈ leaf_values t /\ b = low_byte z.

(** ** A tree description format

    One instance of the pair [pickle_dump] / [pickle_load], on which the
    statements below are run: a tree in preorder, one tag byte per node
    ([x00] sentinel leaf, [x01] symbol leaf followed by its byte, [x02]
    internal node), and [x03] for the object [None]. *)
Fixpoint preorder_dump (t : tree) : list byte :=
  match t with
  | TreeLeaf None => [x00]
  | TreeLeaf (Some z) => [x01; low_byte z]
  | TreeBranch l r => x02 :: preorder_dump l ++ preorder_dump r
  end.

Fixpoint preorder_parse (fuel : nat) (s : istream) : result tree * istream :=
  match fuel with
  | O => (Raise EOFError, s)
  | S fuel' =>
      match read1 s with
      | (None, s') => (Raise EOFError, s')
      | (Some x00, s') => (Ok (TreeLeaf None), s')
      | (Some x01, s') =>
          match read1 s' with
          | (Some b, s'') => (Ok (TreeLeaf (Some (byte_value b))), s'')
          | (None, s'') => (Raise EOFError, s'')
          end
      | (Some x02, s') =>
          match preorder_parse fuel' s' with
          | (Ok l, s1) =>
              match preorder_parse fuel' s1 with
              | (Ok r, s2) => (Ok (TreeBranch l r), s2)
              | (Raise e, s2) => (Raise e, s2)
              end
          | (Raise e, s1) => (Raise e, s1)
          end
      | (Some _, s') => (Raise UnpicklingError, s')
      end
  end.

Definition preorder_load (s : istream) : result (option tree) * istream :=
  match read1 s with
  | (Some x03, s') => (Ok None, s')
  | _ =>
      match preorder_parse (length (content s)) s with
      | (Ok t, s') => (Ok (Some t), s')
      | (Raise e, s') => (Raise e, s')
      end
  end.

(** A tree for the symbols [a] (code 0) and [b] (code 10) and the sentinel
    (code 11). *)
Definition tree_ab : tree :=
  TreeBranch (TreeLeaf (Some 97))
             (TreeBranch (TreeLeaf (Some 98)) (TreeLeaf None)).

(** A tree without a leaf for the sentinel. *)
Definition tree_no_sentinel : tree :=
  TreeBranch (TreeLeaf (Some 97)) (TreeLeaf (Some 98)).

(** * Properties *)

(** ** Bytes and bits *)

Lemma bits_of_byte_length (b : byte) : length (bits_of_byte b) = 8%nat.
Proof.
  unfold bits_of_byte.
  destruct (Byte.to_bits b) as (b0 & b1 & b2 & b3 & b4 & b5 & b6 & b7).
  reflexivity.
Qed.

Lemma bits_of_byte_of_bits (l : list bool) :
  (length l <= 8)%nat ->
  bits_of_byte (byte_of_bits l) = l ++ replicate (8 - length l) false.
Proof.
  intros Hl. unfold bits_of_byte, byte_of_bits.
  rewrite Byte.to_bits_of_bits.
  do 9 (destruct l as [|? l]; [reflexivity|]).
  simpl in Hl. lia.
Qed.

Lemma byte_of_bits_of_byte (b : byte) : byte_of_bits (bits_of_byte b) = b.
Proof.
  destruct b; reflexivity.
Qed.

Lemma bits_of_bytes_app (l1 l2 : list byte) :
  bits_of_bytes (l1 ++ l2) = bits_of_bytes l1 ++ bits_of_bytes l2.
Proof. unfold bits_of_bytes. by rewrite fmap_app, concat_app. Qed.

Lemma bits_of_bytes_cons (b : byte) (l : list byte) :
  bits_of_bytes (b :: l) = bits_of_byte b ++ bits_of_bytes l.
Proof. reflexivity. Qed.

Lemma bits_of_bytes_length (l : list byte) :
  length (bits_of_bytes l) = (8 * length l)%nat.
Proof.
  induction l as [|b l IH]; [reflexivity|].
  rewrite bits_of_bytes_cons, length_app, bits_of_byte_length, IH.
  simpl. lia.
Qed.

Lemma value_of_bits_of_byte (b : byte) :
  value_of_bits 0 (bits_of_byte b) = byte_value b.
Proof. destruct b; reflexivity. Qed.

Lemma low_byte_value (b : byte) : low_byte (byte_value b) = b.
Proof. destruct b; reflexivity. Qed.

(** ** The bit reader *)

Lemma read1_unread (s : istream) :
  match unread s with
  | [] => read1 s = (None, s)
  | b :: rest => exists s', read1 s = (Some b, s') /\ unread s' = rest
  end.
Proof.
  unfold read1, unread. destruct s as [l p]; simpl.
  destruct (l !! p) as [b|] eqn:E.
  - rewrite (drop_S _ _ _ E). eexists; split; [reflexivity|reflexivity].
  - apply lookup_ge_None in E. by rewrite drop_ge.
Qed.

Lemma bits_of_bytes_nil (l : list byte) : bits_of_bytes l = [] -> l = [].
Proof.
  intros H. apply (f_equal length) in H.
  rewrite bits_of_bytes_length in H. destruct l; [done|simpl in H; lia].
Qed.

Lemma readbit_nil (r : BitReader) (s : istream) :
  remaining_bits r s = [] -> readbit r s = (Raise EOFError, r, s).
Proof.
  unfold remaining_bits, readbit. intros H.
  apply app_eq_nil in H as [Hp Hs]. rewrite Hp.
  apply bits_of_bytes_nil in Hs.
  pose proof (read1_unread s) as R. rewrite Hs in R. by rewrite R.
Qed.

Lemma readbit_cons (r : BitReader) (s : istream) (b : bool) (bs : list bool) :
  remaining_bits r s = b :: bs ->
  exists r' s', readbit r s = (Ok b, r', s') /\ remaining_bits r' s' = bs.
Proof.
  unfold remaining_bits, readbit. intros H.
  destruct (r_pending r) as [|b' bs'] eqn:Hp; simpl in H.
  - pose proof (read1_unread s) as R.
    destruct (unread s) as [|x rest] eqn:Hu; [done|].
    destruct R as (s' & -> & Hs').
    rewrite bits_of_bytes_cons in H.
    pose proof (bits_of_byte_length x) as Hx.
    destruct (bits_of_byte x) as [|c cs]; [done|].
    simpl in H. injection H as -> <-.
    do 2 eexists; split; [reflexivity|]. simpl. by rewrite Hs'.
  - injection H as -> <-.
    do 2 eexists; split; reflexivity.
Qed.

Lemma readbit_raises (r : BitReader) (s : istream) e r' s' :
  readbit r s = (Raise e, r', s') -> e = EOFError.
Proof.
  unfold readbit. intros H.
  repeat (case_match; simplify_eq); done.
Qed.

Lemma readbits_from_ok (bits : list bool) :
  forall v r s rest,
    remaining_bits r s = bits ++ rest ->
    exists r' s',
      readbits_from v (length bits) r s = (Ok (value_of_bits v bits), r', s')
      /\ remaining_bits r' s' = rest.
Proof.
  induction bits as [|b bits IH]; intros v r s rest H; simpl in *.
  - by do 2 eexists.
  - destruct (readbit_cons _ _ _ _ H) as (r1 & s1 & -> & H1).
    apply IH, H1.
Qed.

Lemma readbits_byte (r : BitReader) (s : istream) (b : byte) rest :
  remaining_bits r s = bits_of_byte b ++ rest ->
  exists r' s',
    readbits 8 r s = (Ok (byte_value b), r', s')
    /\ remaining_bits r' s' = rest.
Proof.
  intros H. unfold readbits.
  destruct (readbits_from_ok _ 0 _ _ _ H) as (r' & s' & E & H').
  rewrite bits_of_byte_length, value_of_bits_of_byte in E. eauto.
Qed.

Lemma readbits_eof (r : BitReader) (s : istream) :
  remaining_bits r s = [] -> readbits 8 r s = (Raise EOFError, r, s).
Proof. intros H. unfold readbits. simpl. by rewrite (readbit_nil _ _ H). Qed.

(** ** [decode_byte] *)

Lemma decode_byte_leaf (t : tree) :
  forall path value r s rest,
    descend t path = Some (TreeLeaf value) ->
    remaining_bits r s = path ++ rest ->
    exists r' s',
      decode_byte t r s = (Ok value, r', s') /\ remaining_bits r' s' = rest.
Proof.
  induction t as [v|l IHl r0 IHr]; intros path value r s rest Hd Hb.
  - destruct path; simpl in Hd; [|done]. injection Hd as ->.
    simpl in *. eauto.
  - destruct path as [|b path]; simpl in Hd; [done|].
    simpl in Hb. destruct (readbit_cons _ _ _ _ Hb) as (r1 & s1 & E & H1).
    simpl. rewrite E. destruct b; eauto.
Qed.

Lemma decode_byte_cut (t : tree) :
  forall r s l r0,
    descend t (remaining_bits r s) = Some (TreeBranch l r0) ->
    exists r' s',
      decode_byte t r s = (Ok None, r', s') /\ remaining_bits r' s' = [].
Proof.
  induction t as [v|l IHl r0 IHr]; intros r s l' r' Hd.
  - destruct (remaining_bits r s); simpl in Hd; done.
  - destruct (remaining_bits r s) as [|b bits] eqn:Hb; simpl in Hd.
    + simpl. rewrite (readbit_nil _ _ Hb). eauto.
    + destruct (readbit_cons _ _ _ _ Hb) as (r1 & s1 & E & H1).
      simpl. rewrite E. subst bits. destruct b; eauto.
Qed.

Lemma decode_byte_never_raises (t : tree) :
  forall r s e r' s', decode_byte t r s <> (Raise e, r', s').
Proof.
  induction t as [v|l IHl r0 IHr]; intros r s e r' s'; simpl; [done|].
  destruct (readbit r s) as [[[b|e1] r1] s1] eqn:E.
  - destruct b; auto.
  - apply readbit_raises in E as ->. done.
Qed.

(** ** The bit writer *)

Lemma writebit_spec (b : bool) (w : BitWriter) (out : ostream) :
  (length (w_pending w) < 8)%nat ->
  exists w' e,
    writebit b w out = (w', out ++ e)
    /\ bits_of_bytes e ++ w_pending w' = w_pending w ++ [b]
    /\ (length (w_pending w') < 8)%nat.
Proof.
  intros Hw. unfold writebit. simpl.
  destruct (decide (length (w_pending w ++ [b]) = 8%nat)) as [E|E].
  - exists {| w_pending := [] |}, [byte_of_bits (w_pending w ++ [b])].
    split; [reflexivity|]. split; [|simpl; lia].
    unfold bits_of_bytes. simpl.
    rewrite bits_of_byte_of_bits by lia.
    rewrite E. simpl. by rewrite !app_nil_r.
  - exists {| w_pending := w_pending w ++ [b] |}, [].
    rewrite app_nil_r. split; [reflexivity|]. split; [reflexivity|].
    simpl. rewrite length_app in *. simpl in *. lia.
Qed.

Lemma write_code_spec (code : list bool) :
  forall w out,
    (length (w_pending w) < 8)%nat ->
    exists w' e,
      write_code code w out = (w', out ++ e)
      /\ bits_of_bytes e ++ w_pending w' = w_pending w ++ code
      /\ (length (w_pending w') < 8)%nat.
Proof.
  induction code as [|b code IH]; intros w out Hw; simpl.
  - exists w, []. rewrite !app_nil_r. auto.
  - destruct (writebit_spec b w out Hw) as (w1 & e1 & -> & H1 & L1).
    destruct (IH w1 (out ++ e1) L1) as (w2 & e2 & -> & H2 & L2).
    exists w2, (e1 ++ e2). rewrite app_assoc. split; [reflexivity|].
    split; [|done].
    rewrite bits_of_bytes_app, <- app_assoc, H2, app_assoc, H1.
    by rewrite <- app_assoc.
Qed.

Lemma writebits_8_aligned (value : Z) (w : BitWriter) (out : ostream) :
  w_pending w = [] ->
  writebits value 8 w out = ({| w_pending := [] |}, out ++ [low_byte value]).
Proof. destruct w as [p]; simpl; intros ->. reflexivity. Qed.

Lemma flush_spec (w : BitWriter) (out : ostream) :
  (length (w_pending w) < 8)%nat ->
  exists e k,
    flush w out = ({| w_pending := [] |}, out ++ e)
    /\ bits_of_bytes e = w_pending w ++ replicate k false
    /\ (k < 8)%nat.
Proof.
  intros Hw. unfold flush. destruct w as [p]; simpl in *.
  destruct p as [|b p].
  - exists [], 0%nat. rewrite app_nil_r. split; [done|]. split; [done|lia].
  - exists [byte_of_bits (b :: p)], (8 - length (b :: p))%nat.
    split; [done|]. split; [|simpl; lia].
    unfold bits_of_bytes. simpl concat. rewrite app_nil_r.
    apply bits_of_byte_of_bits. lia.
Qed.

(** ** The encoding table *)

Lemma recurse_lookup_Some (t : tree) :
  forall path table value code,
    recurse t path table !! value = Some code ->
    table !! value = Some code
    \/ exists q, code = path ++ q /\ descend t q = Some (TreeLeaf value).
Proof.
  induction t as [v|l IHl r IHr]; intros path table value code H; simpl in H.
  - destruct (decide (v = value)) as [->|Hne].
    + rewrite lookup_insert_eq in H. injection H as <-.
      right. exists []. by rewrite app_nil_r.
    + rewrite lookup_insert_ne in H by done. by left.
  - apply IHr in H as [H|(q & -> & Hq)].
    + apply IHl in H as [H|(q & -> & Hq)]; [by left|].
      right. exists (false :: q). by rewrite <- app_assoc.
    + right. exists (true :: q). by rewrite <- app_assoc.
Qed.

Lemma recurse_lookup_None (t : tree) :
  forall path table value,
    recurse t path table !! value = None <->
    (value ∉ leaf_values t) /\ table !! value = None.
Proof.
  induction t as [v|l IHl r IHr]; intros path table value; simpl.
  - rewrite lookup_insert_None, list_elem_of_singleton.
    split; intros [H1 H2]; split; auto.
  - rewrite IHr, IHl, elem_of_app. tauto.
Qed.

Lemma table_lookup_None (t : tree) (value : option Z) :
  make_encoding_table t !! value = None <-> value ∉ leaf_values t.
Proof.
  unfold make_encoding_table. rewrite recurse_lookup_None, lookup_empty.
  tauto.
Qed.

Lemma table_lookup_Some (t : tree) (value : option Z) (code : list bool) :
  make_encoding_table t !! value = Some code ->
  descend t code = Some (TreeLeaf value).
Proof.
  unfold make_encoding_table. intros H.
  apply recurse_lookup_Some in H as [H|(q & -> & Hq)]; [|done].
  by rewrite lookup_empty in H.
Qed.

Lemma table_covers (t : tree) (value : option Z) :
  value ∈ leaf_values t ->
  exists code,
    make_encoding_table t !! value = Some code
    /\ descend t code = Some (TreeLeaf value).
Proof.
  intros Hin.
  destruct (make_encoding_table t !! value) as [code|] eqn:E.
  - exists code. split; [done|]. by apply table_lookup_Some.
  - apply table_lookup_None in E. done.
Qed.

(** ** The loop of [compress] *)

Section EncodeLoop.

Variable table : gmap (option Z) (list bool).

Lemma encode_cons (b : byte) (input : list byte) :
  encode table (b :: input) = code_of table b ++ encode table input.
Proof. reflexivity. Qed.

(** The loop over bytes that all have an entry: their codes are written,
    in order, and the loop goes on with what is left of the input. *)
Lemma encode_loop_prefix (pre : list byte) :
  forall r s w out rest,
    remaining_bits r s = bits_of_bytes pre ++ rest ->
    encodable table pre ->
    (length (w_pending w) < 8)%nat ->
    exists r1 s1 w1 e,
      remaining_bits r1 s1 = rest
      /\ bits_of_bytes e ++ w_pending w1 = w_pending w ++ encode table pre
      /\ (length (w_pending w1) < 8)%nat
      /\ forall fuel,
           encode_loop (length pre + fuel) table r s w out
           = encode_loop fuel table r1 s1 w1 (out ++ e).
Proof.
  induction pre as [|b pre IH]; intros r s w out rest Hr Hc Hw.
  - exists r, s, w, []. rewrite !app_nil_r. auto.
  - rewrite bits_of_bytes_cons, <- app_assoc in Hr.
    destruct (readbits_byte _ _ _ _ Hr) as (r' & s' & Hrd & Hr').
    apply Forall_cons in Hc as [[code Hcode] Hc].
    destruct (write_code_spec code w out Hw) as (w' & e1 & Hwc & He1 & Hw').
    destruct (IH r' s' w' (out ++ e1) rest Hr' Hc Hw')
      as (r1 & s1 & w1 & e2 & H1 & H2 & H3 & H4).
    exists r1, s1, w1, (e1 ++ e2). split; [done|]. split; [|split; [done|]].
    + rewrite bits_of_bytes_app, <- app_assoc, H2, app_assoc, He1.
      rewrite encode_cons. unfold code_of at 1. rewrite Hcode. simpl.
      by rewrite <- app_assoc.
    + intros fuel. simpl. rewrite Hrd, Hcode, Hwc, H4.
      by rewrite <- app_assoc.
Qed.

(** At the end of the input the sentinel's code is written and the loop
    ends. *)
Lemma encode_loop_end (fuel : nat) r s w out code :
  remaining_bits r s = [] ->
  table !! None = Some code ->
  (length (w_pending w) < 8)%nat ->
  exists w' e,
    encode_loop (S fuel) table r s w out = Some (Ok tt, r, s, w', out ++ e)
    /\ bits_of_bytes e ++ w_pending w' = w_pending w ++ code
    /\ (length (w_pending w') < 8)%nat.
Proof.
  intros Hr Hn Hw. simpl. rewrite (readbits_eof _ _ Hr), Hn.
  destruct (write_code_spec code w out Hw) as (w' & e & -> & He & Hw').
  eauto.
Qed.

(** At the end of the input, without an entry for the sentinel, the lookup
    fails and nothing is written. *)
Lemma encode_loop_end_KeyError (fuel : nat) r s w out :
  remaining_bits r s = [] ->
  table !! None = None ->
  encode_loop (S fuel) table r s w out = Some (Raise KeyError, r, s, w, out).
Proof. intros Hr Hn. simpl. by rewrite (readbits_eof _ _ Hr), Hn. Qed.

(** On a byte without an entry the lookup fails and nothing is written. *)
Lemma encode_loop_KeyError (fuel : nat) r s w out b rest :
  remaining_bits r s = bits_of_byte b ++ rest ->
  table !! Some (byte_value b) = None ->
  exists r' s',
    encode_loop (S fuel) table r s w out = Some (Raise KeyError, r', s', w, out)
    /\ remaining_bits r' s' = rest.
Proof.
  intros Hr Hn. simpl.
  destruct (readbits_byte _ _ _ _ Hr) as (r' & s' & -> & Hr').
  rewrite Hn. eauto.
Qed.

End EncodeLoop.

(** ** The loop of [decompress] *)

Section DecodeLoop.

Variable t : tree.

Lemma decode_loop_step (fuel : nat) (v : Z) r s w out :
  decode_loop (S fuel) t (Some v) r s w out =
  let '(w', out') := writebits v 8 w out in
  match decode_byte t r s with
  | (Ok value', r', s') => decode_loop fuel t value' r' s' w' out'
  | (Raise e, r', s') => Some (Raise e, r', s', w', out')
  end.
Proof. reflexivity. Qed.

(** The first [decode_byte] and the loop after it, on a payload that
    spells a sequence of symbols and then a tail on which [decode_byte]
    returns [None]: one byte is written per symbol, and the loop ends on
    the tail. *)
Lemma decode_loop_symbols (tail rest : list bool) (symbols : list (Z * list bool)) :
  (forall r s, remaining_bits r s = tail ->
     exists r' s', decode_byte t r s = (Ok None, r', s')
                   /\ remaining_bits r' s' = rest) ->
  spelled t symbols ->
  forall fuel r s w out,
    (length symbols <= fuel)%nat ->
    remaining_bits r s = payload_bits symbols ++ tail ->
    w_pending w = [] ->
    exists value r1 s1 r' s',
      decode_byte t r s = (Ok value, r1, s1)
      /\ decode_loop fuel t value r1 s1 w out
         = Some (Ok tt, r', s', {| w_pending := [] |},
                 out ++ payload_bytes symbols)
      /\ remaining_bits r' s' = rest.
Proof.
  intros Htail. induction symbols as [|[z p] symbols IH];
    intros Hsp fuel r s w out Hfuel Hr Hw.
  - destruct (Htail r s Hr) as (r' & s' & E & Hr').
    exists None, r', s', r', s'. split; [done|]. split; [|done].
    destruct w as [pw]; simpl in Hw; subst pw.
    destruct fuel; simpl; by rewrite app_nil_r.
  - apply Forall_cons in Hsp as [Hp Hsp]. simpl in Hp.
    unfold payload_bits in Hr. simpl in Hr. rewrite <- app_assoc in Hr.
    destruct (decode_byte_leaf t _ _ _ _ _ Hp Hr) as (r1 & s1 & E & Hr1).
    destruct fuel as [|fuel]; [simpl in Hfuel; lia|].
    destruct (IH Hsp fuel r1 s1 {| w_pending := [] |} (out ++ [low_byte z]))
      as (value & r2 & s2 & r' & s' & E2 & L & Hr'); [simpl in Hfuel; lia|done|done|].
    exists (Some z), r1, s1, r', s'. split; [done|]. split; [|done].
    rewrite decode_loop_step, (writebits_8_aligned _ _ _ Hw), E2, L.
    unfold payload_bytes. simpl. by rewrite <- app_assoc.
Qed.

End DecodeLoop.

(** ** [compress] and [decompress] as wholes *)

Lemma remaining_bits_new (s : istream) :
  remaining_bits new_BitReader s = bits_of_bytes (unread s).
Proof. reflexivity. Qed.

Lemma encodable_split (table : gmap (option Z) (list bool)) (input : list byte) :
  encodable table input
  \/ exists pre b post,
       input = pre ++ b :: post
       /\ encodable table pre
       /\ table !! Some (byte_value b) = None.
Proof.
  induction input as [|b input IH].
  - left. constructor.
  - destruct (table !! Some (byte_value b)) as [code|] eqn:E.
    + destruct IH as [IH|(pre & x & post & -> & Hpre & Hx)].
      * left. constructor; [by rewrite E|done].
      * right. exists (b :: pre), x, post. split; [done|]. split; [|done].
        constructor; [by rewrite E|done].
    + right. exists [], b, input. split; [done|]. split; [constructor|done].
Qed.

Section Whole.

Variable pickle_dump : tree -> list byte.
Variable pickle_load : istream -> result (option tree) * istream.

(** [compress] on an input whose bytes all have an entry, with a tree that
    has a leaf for the sentinel. *)
Lemma compress_ok (t : tree) (uncompressed : istream) (compressed : ostream)
    (fuel : nat) (code : list bool) :
  encodable (make_encoding_table t) (unread uncompressed) ->
  make_encoding_table t !! None = Some code ->
  (length (unread uncompressed) < fuel)%nat ->
  exists c payload k,
    compress pickle_dump fuel t uncompressed compressed = Some c
    /\ returned c = Ok tt
    /\ out_stream c = compressed ++ pickle_dump t ++ payload
    /\ bits_of_bytes payload
       = encode (make_encoding_table t) (unread uncompressed)
         ++ code ++ replicate k false
    /\ (k < 8)%nat
    /\ w_pending (writer c) = []
    /\ remaining_bits (reader c) (in_stream c) = [].
Proof.
  intros Henc Hnone Hfuel. unfold compress, write_tree.
  destruct (encode_loop_prefix (make_encoding_table t) (unread uncompressed)
              new_BitReader uncompressed new_BitWriter
              (compressed ++ pickle_dump t) [])
    as (r1 & s1 & w1 & e1 & Hr1 & He1 & Hw1 & Hloop);
    [by rewrite app_nil_r|done|simpl; lia|].
  replace fuel with (length (unread uncompressed)
                     + S (fuel - S (length (unread uncompressed))))%nat by lia.
  rewrite Hloop.
  destruct (encode_loop_end (make_encoding_table t)
              (fuel - S (length (unread uncompressed)))
              r1 s1 w1 ((compressed ++ pickle_dump t) ++ e1) code Hr1 Hnone Hw1)
    as (w2 & e2 & -> & He2 & Hw2).
  destruct (flush_spec w2 (((compressed ++ pickle_dump t) ++ e1) ++ e2) Hw2)
    as (e3 & k & -> & He3 & Hk).
  eexists _, (e1 ++ e2 ++ e3), k. split; [reflexivity|]. simpl.
  split; [done|]. split; [by rewrite <- !app_assoc|].
  split; [|done].
  rewrite !bits_of_bytes_app, He3, (app_assoc (bits_of_bytes e2)), He2.
  rewrite <- !app_assoc, (app_assoc (bits_of_bytes e1)), He1.
  reflexivity.
Qed.

(** [compress] on an input with a byte that has no entry. *)
Lemma compress_KeyError (t : tree) (uncompressed : istream)
    (compressed : ostream) (fuel : nat) (pre : list byte) (b : byte)
    (post : list byte) :
  unread uncompressed = pre ++ b :: post ->
  encodable (make_encoding_table t) pre ->
  make_encoding_table t !! Some (byte_value b) = None ->
  (length pre < fuel)%nat ->
  exists c e,
    compress pickle_dump fuel t uncompressed compressed = Some c
    /\ returned c = Raise KeyError
    /\ out_stream c = compressed ++ pickle_dump t ++ e
    /\ bits_of_bytes e ++ w_pending (writer c)
       = encode (make_encoding_table t) pre
    /\ remaining_bits (reader c) (in_stream c) = bits_of_bytes post.
Proof.
  intros Hin Henc Hb Hfuel. unfold compress, write_tree.
  destruct (encode_loop_prefix (make_encoding_table t) pre
              new_BitReader uncompressed new_BitWriter
              (compressed ++ pickle_dump t)
              (bits_of_byte b ++ bits_of_bytes post))
    as (r1 & s1 & w1 & e1 & Hr1 & He1 & Hw1 & Hloop);
    [by rewrite remaining_bits_new, Hin, bits_of_bytes_app|done|simpl; lia|].
  replace fuel with (length pre + S (fuel - S (length pre)))%nat by lia.
  rewrite Hloop.
  destruct (encode_loop_KeyError (make_encoding_table t)
              (fuel - S (length pre)) r1 s1 w1
              ((compressed ++ pickle_dump t) ++ e1) b _ Hr1 Hb)
    as (r' & s' & -> & Hr').
  eexists _, e1. split; [reflexivity|]. simpl.
  split; [done|]. split; [by rewrite <- app_assoc|]. done.
Qed.

(** [compress] with a tree that has no leaf for the sentinel, on an input
    whose bytes all have an entry. *)
Lemma compress_no_sentinel (t : tree) (uncompressed : istream)
    (compressed : ostream) (fuel : nat) :
  encodable (make_encoding_table t) (unread uncompressed) ->
  make_encoding_table t !! None = None ->
  (length (unread uncompressed) < fuel)%nat ->
  exists c e,
    compress pickle_dump fuel t uncompressed compressed = Some c
    /\ returned c = Raise KeyError
    /\ out_stream c = compressed ++ pickle_dump t ++ e
    /\ bits_of_bytes e ++ w_pending (writer c)
       = encode (make_encoding_table t) (unread uncompressed)
    /\ remaining_bits (reader c) (in_stream c) = [].
Proof.
  intros Henc Hnone Hfuel. unfold compress, write_tree.
  destruct (encode_loop_prefix (make_encoding_table t) (unread uncompressed)
              new_BitReader uncompressed new_BitWriter
              (compressed ++ pickle_dump t) [])
    as (r1 & s1 & w1 & e1 & Hr1 & He1 & Hw1 & Hloop);
    [by rewrite app_nil_r|done|simpl; lia|].
  replace fuel with (length (unread uncompressed)
                     + S (fuel - S (length (unread uncompressed))))%nat by lia.
  rewrite Hloop, (encode_loop_end_KeyError _ _ _ _ _ _ Hr1 Hnone).
  eexists _, e1. split; [reflexivity|]. simpl.
  split; [done|]. split; [by rewrite <- app_assoc|]. done.
Qed.

(** [decompress] on a stream whose tree section describes a tree and whose
    payload spells a sequence of symbols and then a tail on which
    [decode_byte] returns [None]. *)
Lemma decompress_payload (compressed s1 : istream) (t : tree)
    (symbols : list (Z * list bool)) (tail rest : list bool)
    (uncompressed : ostream) (fuel : nat) :
  pickle_load (seek 0 compressed) = (Ok (Some t), s1) ->
  spelled t symbols ->
  (forall r s, remaining_bits r s = tail ->
     exists r' s', decode_byte t r s = (Ok None, r', s')
                   /\ remaining_bits r' s' = rest) ->
  bits_of_bytes (unread s1) = payload_bits symbols ++ tail ->
  (length symbols <= fuel)%nat ->
  exists d,
    decompress pickle_load fuel compressed uncompressed = Some d
    /\ returned d = Ok tt
    /\ out_stream d = uncompressed ++ payload_bytes symbols
    /\ w_pending (writer d) = []
    /\ printed d = []
    /\ remaining_bits (reader d) (in_stream d) = rest.
Proof.
  intros Hload Hsp Htail Hbits Hfuel. unfold decompress, read_tree.
  rewrite Hload.
  destruct (decode_loop_symbols t tail rest symbols Htail Hsp fuel
              new_BitReader s1 new_BitWriter uncompressed Hfuel)
    as (value & r1 & s1' & r' & s' & -> & -> & Hr'); [done|done|].
  simpl. eexists. split; [reflexivity|]. simpl. done.
Qed.

End Whole.

(** ** The input of [compress] as a spelled payload *)

Lemma payload_bits_symbols_of table (input : list byte) :
  payload_bits (symbols_of table input) = encode table input.
Proof.
  unfold payload_bits, symbols_of, encode.
  by rewrite <- list_fmap_compose.
Qed.

Lemma payload_bytes_symbols_of table (input : list byte) :
  payload_bytes (symbols_of table input) = input.
Proof.
  unfold payload_bytes, symbols_of.
  induction input as [|b input IH]; [done|].
  rewrite !fmap_cons. f_equal; [apply low_byte_value|exact IH].
Qed.

Lemma spelled_symbols_of (t : tree) (input : list byte) :
  encodable (make_encoding_table t) input ->
  spelled t (symbols_of (make_encoding_table t) input).
Proof.
  unfold encodable, spelled, symbols_of. intros H.
  apply Forall_fmap. eapply Forall_impl; [exact H|].
  intros b [code Hcode]. simpl. unfold code_of. rewrite Hcode. simpl.
  by apply table_lookup_Some.
Qed.

Lemma covered_encodable (t : tree) (input : list byte) :
  (forall b, b ∈ input -> Some (byte_value b) ∈ leaf_values t) ->
  encodable (make_encoding_table t) input.
Proof.
  intros H. apply Forall_forall. intros b Hb.
  destruct (table_covers t _ (H b Hb)) as (code & -> & _). by eexists.
Qed.

Lemma descend_cases (t : tree) :
  forall bits,
    (exists path rest value,
       bits = path ++ rest /\ descend t path = Some (TreeLeaf value))
    \/ exists l r, descend t bits = Some (TreeBranch l r).
Proof.
  induction t as [v|l IHl r IHr]; intros bits.
  - left. by exists [], bits, v.
  - destruct bits as [|b bits]; [right; by exists l, r|].
    assert ((exists path rest value,
               bits = path ++ rest
               /\ descend (if b then r else l) path = Some (TreeLeaf value))
            \/ exists l' r', descend (if b then r else l) bits
                             = Some (TreeBranch l' r')) as IH
      by (destruct b; auto).
    destruct IH as [(path & rest & value & Hb & Hd)|(l' & r' & Hd)].
    + left. exists (b :: path), rest, value. split; [by rewrite Hb|done].
    + right. by exists l', r'.
Qed.

(** As many bits as the tree is high are enough to reach a leaf. *)
Lemma height_enough (t : tree) :
  forall bits l r,
    (height t <= length bits)%nat ->
    descend t bits <> Some (TreeBranch l r).
Proof.
  induction t as [v|t1 IH1 t2 IH2]; intros bits l r H.
  - by destruct bits.
  - destruct bits as [|b bits]; simpl in H; [lia|].
    simpl. destruct b; [apply IH2|apply IH1]; lia.
Qed.

(** * The statements of the specification *)

(** C8. On a tree whose root is a leaf, [decode_byte] returns the value of
    that leaf and consumes no bit: the reader and the stream under it are
    as they were. *)
Theorem decode_byte_single_node (value : option Z) (r : BitReader) (s : istream) :
  decode_byte (TreeLeaf value) r s = (Ok value, r, s)
  /\ (let '(_, r', s') := decode_byte (TreeLeaf value) r s in
      remaining_bits r' s' = remaining_bits r s).
Proof. split; reflexivity. Qed.

(** C9. [read_tree] seeks to offset 0 before it reads the tree: whatever
    the position of the stream at the call, the tree is what [pickle.load]
    reads from offset 0 of the stream. So it is for [decompress]: what it
    does is decided by [pickle.load] at offset 0, an exception of the load
    leaves it with nothing written, the object [None] makes it return with
    nothing written, and a tree is the one it decodes the payload with,
    the payload being read from where the load left the stream. *)
Theorem read_tree_from_start
    (pickle_load : istream -> result (option tree) * istream)
    (bytes : list byte) (p : nat) :
  read_tree pickle_load (IStream bytes p)
  = read_tree pickle_load (IStream bytes 0)
  /\ (let '(tree_root, tree_stream, _) :=
        read_tree pickle_load (IStream bytes p) in
      tree_stream = (pickle_load (IStream bytes 0)).2
      /\ tree_root = match (pickle_load (IStream bytes 0)).1 with
                     | Ok obj => Ok obj
                     | Raise EOFError => Raise NameError
                     | Raise e => Raise e
                     end)
  /\ (forall fuel uncompressed,
        decompress pickle_load fuel (IStream bytes p) uncompressed
        = decompress pickle_load fuel (IStream bytes 0) uncompressed)
  /\ forall fuel uncompressed,
       decompress pickle_load fuel (IStream bytes p) uncompressed
       = match pickle_load (IStream bytes 0) with
         | (Raise EOFError, after_tree) =>
             Some (Final (Raise NameError) after_tree new_BitReader
                     new_BitWriter uncompressed
                     ["Invalid Huffman Tree"%string])
         | (Raise e, after_tree) =>
             Some (Final (Raise e) after_tree new_BitReader new_BitWriter
                     uncompressed [])
         | (Ok None, after_tree) =>
             Some (Final (Ok tt) after_tree new_BitReader new_BitWriter
                     uncompressed [])
         | (Ok (Some tree_root), after_tree) =>
             match decode_byte tree_root new_BitReader after_tree with
             | (Raise e, r, s) =>
                 Some (Final (Raise e) s r new_BitWriter uncompressed [])
             | (Ok value, r, s) =>
                 match decode_loop fuel tree_root value r s new_BitWriter
                         uncompressed with
                 | None => None
                 | Some (Ok _, r', s', w, out) =>
                     Some (Final (Ok tt) s' r' (flush w out).1
                             (flush w out).2 [])
                 | Some (Raise e, r', s', w, out) =>
                     Some (Final (Raise e) s' r' w out [])
                 end
             end
         end.
Proof.
  split; [reflexivity|]. split; [|split; [reflexivity|]].
  - unfold read_tree, seek. simpl.
    destruct (pickle_load (IStream bytes 0)) as [[v|e] s1]; [done|].
    by destruct e.
  - intros fuel uncompressed. unfold decompress, read_tree, seek. simpl.
    destruct (pickle_load (IStream bytes 0)) as [[[t|]|e] s1];
      [|reflexivity|by destruct e].
    destruct (decode_byte t new_BitReader s1) as [[[value|e] r] s];
      [|reflexivity].
    destruct (decode_loop fuel t value r s new_BitWriter uncompressed)
      as [[[[[[[]|e] r'] s'] w] out]|]; [|reflexivity|reflexivity].
    by destruct (flush w out).
Qed.

(** C7. When the bits left in the source do not run out at an internal
    node, [decode_byte] starts at the root and reads a path of the source,
    one bit per internal node, left on 0 and right on 1, down to a leaf; it
    returns the value of that leaf and leaves the bits after the path
    unread. *)
Theorem decode_byte_traversal (t : tree) (r : BitReader) (s : istream) :
  (forall l r0, descend t (remaining_bits r s) <> Some (TreeBranch l r0)) ->
  exists path rest value r' s',
    remaining_bits r s = path ++ rest
    /\ descend t path = Some (TreeLeaf value)
    /\ decode_byte t r s = (Ok value, r', s')
    /\ remaining_bits r' s' = rest.
Proof.
  intros H.
  destruct (descend_cases t (remaining_bits r s))
    as [(path & rest & value & Hb & Hd)|(l & r0 & Hd)]; [|by destruct (H l r0)].
  destruct (decode_byte_leaf t path value r s rest Hd Hb) as (r' & s' & E & Hr).
  by exists path, rest, value, r', s'.
Qed.

Lemma decode_byte_traversal_witness :
  exists path rest value r' s',
    remaining_bits new_BitReader (IStream [x80] 0) = path ++ rest
    /\ descend tree_ab path = Some (TreeLeaf value)
    /\ decode_byte tree_ab new_BitReader (IStream [x80] 0) = (Ok value, r', s')
    /\ remaining_bits r' s' = rest.
Proof.
  apply (decode_byte_traversal tree_ab new_BitReader (IStream [x80] 0)).
  intros l r0. apply height_enough. vm_compute. lia.
Defined.

(** C3. On a stream whose tree section is empty or ends early, so that
    [pickle.load] raises [EOFError], [decompress] does not come back with no
    output: the handler in [read_tree] prints its message and then a
    [NameError] is raised, which leaves [decompress]. *)
Theorem decompress_empty_tree_section
    (pickle_load : istream -> result (option tree) * istream)
    (compressed s' : istream) (uncompressed : ostream) (fuel : nat) :
  pickle_load (seek 0 compressed) = (Raise EOFError, s') ->
  decompress pickle_load fuel compressed uncompressed
  = Some {| returned := Raise NameError;
            in_stream := s';
            reader := new_BitReader;
            writer := new_BitWriter;
            out_stream := uncompressed;
            printed := ["Invalid Huffman Tree"%string] |}.
Proof. intros H. unfold decompress, read_tree. by rewrite H. Qed.

Lemma decompress_empty_tree_section_witness :
  decompress preorder_load 1 (IStream [] 0) []
  = Some {| returned := Raise NameError;
            in_stream := IStream [] 0;
            reader := new_BitReader;
            writer := new_BitWriter;
            out_stream := [];
            printed := ["Invalid Huffman Tree"%string] |}.
Proof.
  apply (decompress_empty_tree_section preorder_load (IStream [] 0)
           (IStream [] 0) [] 1).
  reflexivity.
Defined.

(** C4. On a valid container (a tree description, then the codes of a
    sequence of symbols, the code of the sentinel, and padding) the loop of
    [decompress] ends when the sentinel is decoded: the output receives one
    byte per symbol and nothing for the sentinel, and the bits of the
    sentinel are consumed, those after it are not. *)
Theorem decompress_stops_at_sentinel
    (pickle_load : istream -> result (option tree) * istream)
    (compressed s1 : istream) (t : tree) (symbols : list (Z * list bool))
    (sentinel padding : list bool) (uncompressed : ostream) (fuel : nat) :
  pickle_load (seek 0 compressed) = (Ok (Some t), s1) ->
  spelled t symbols ->
  descend t sentinel = Some (TreeLeaf None) ->
  bits_of_bytes (unread s1) = payload_bits symbols ++ sentinel ++ padding ->
  (length symbols <= fuel)%nat ->
  exists d,
    decompress pickle_load fuel compressed uncompressed = Some d
    /\ returned d = Ok tt
    /\ out_stream d = uncompressed ++ payload_bytes symbols
    /\ length (out_stream d) = (length uncompressed + length symbols)%nat
    /\ remaining_bits (reader d) (in_stream d) = padding.
Proof.
  intros Hload Hsp Hsent Hbits Hfuel.
  destruct (decompress_payload pickle_load compressed s1 t symbols
              (sentinel ++ padding) padding uncompressed fuel Hload Hsp)
    as (d & Hd & Hret & Hout & _ & _ & Hrest); [|done|done|].
  - intros r s Hr. by apply (decode_byte_leaf t sentinel).
  - exists d. repeat split; try done.
    rewrite Hout, length_app. unfold payload_bytes. by rewrite length_fmap.
Qed.

Lemma decompress_stops_at_sentinel_witness :
  exists d,
    decompress preorder_load 2
      (IStream (preorder_dump tree_ab ++ [x58]) 3) [] = Some d
    /\ returned d = Ok tt
    /\ out_stream d = [] ++ payload_bytes [(97, [false]); (98, [true; false])]
    /\ length (out_stream d) = (0 + 2)%nat
    /\ remaining_bits (reader d) (in_stream d) = [false; false; false].
Proof.
  apply (decompress_stops_at_sentinel preorder_load
           (IStream (preorder_dump tree_ab ++ [x58]) 3)
           (IStream (preorder_dump tree_ab ++ [x58]) 7)
           tree_ab [(97, [false]); (98, [true; false])] [true; true]
           [false; false; false] [] 2).
  - reflexivity.
  - repeat constructor.
  - reflexivity.
  - reflexivity.
  - simpl. lia.
Defined.

(** C2, as the code has it. When the bits run out before a leaf is reached,
    [decode_byte] catches the [EOFError] and returns [None], the value of
    the sentinel leaf; [decompress] then leaves its loop as it does at the
    sentinel, flushes, and returns normally with the bytes decoded so far. *)
Theorem truncated_payload_ends_normally
    (pickle_load : istream -> result (option tree) * istream)
    (compressed s1 : istream) (t l r0 : tree) (symbols : list (Z * list bool))
    (tail : list bool) (uncompressed : ostream) (fuel : nat) :
  pickle_load (seek 0 compressed) = (Ok (Some t), s1) ->
  spelled t symbols ->
  descend t tail = Some (TreeBranch l r0) ->
  bits_of_bytes (unread s1) = payload_bits symbols ++ tail ->
  (length symbols <= fuel)%nat ->
  (forall r s, remaining_bits r s = tail ->
     exists r' s', decode_byte t r s = (Ok None, r', s')
                   /\ remaining_bits r' s' = [])
  /\ exists d,
       decompress pickle_load fuel compressed uncompressed = Some d
       /\ returned d = Ok tt
       /\ out_stream d = uncompressed ++ payload_bytes symbols
       /\ remaining_bits (reader d) (in_stream d) = [].
Proof.
  intros Hload Hsp Htail Hbits Hfuel.
  assert (forall r s, remaining_bits r s = tail ->
            exists r' s', decode_byte t r s = (Ok None, r', s')
                          /\ remaining_bits r' s' = []) as Hcut.
  { intros r s Hr. apply (decode_byte_cut t r s l r0). by rewrite Hr. }
  split; [exact Hcut|].
  destruct (decompress_payload pickle_load compressed s1 t symbols
              tail [] uncompressed fuel Hload Hsp Hcut Hbits Hfuel)
    as (d & Hd & Hret & Hout & _ & _ & Hrest).
  by exists d.
Qed.

Lemma truncated_payload_ends_normally_witness :
  (forall r s, remaining_bits r s = [true] ->
     exists r' s', decode_byte tree_ab r s = (Ok None, r', s')
                   /\ remaining_bits r' s' = [])
  /\ exists d,
       decompress preorder_load 7
         (IStream (preorder_dump tree_ab ++ [x01]) 0) [x2a] = Some d
       /\ returned d = Ok tt
       /\ out_stream d
          = [x2a] ++ payload_bytes [(97, [false]); (97, [false]); (97, [false]);
                                    (97, [false]); (97, [false]); (97, [false]);
                                    (97, [false])]
       /\ remaining_bits (reader d) (in_stream d) = [].
Proof.
  apply (truncated_payload_ends_normally preorder_load
           (IStream (preorder_dump tree_ab ++ [x01]) 0)
           (IStream (preorder_dump tree_ab ++ [x01]) 7)
           tree_ab (TreeLeaf (Some 98)) (TreeLeaf None)).
  - reflexivity.
  - repeat constructor.
  - reflexivity.
  - reflexivity.
  - simpl. lia.
Defined.

(** C2, as the claim states it, fails. [compress] turns the input [aaaaaaab]
    into the tree description and the two bytes [x01 x60]. With the last
    byte removed the payload ends after the first bit of the code of [b],
    at an internal node. There [decode_byte] raises nothing and returns
    [None], and [decompress] returns normally with the seven bytes decoded
    before: the truncated stream is taken for the end of the stream. *)
Lemma truncated_payload_not_reported :
  out_stream <$> compress preorder_dump 9 tree_ab
                   (IStream [x61; x61; x61; x61; x61; x61; x61; x62] 0) []
  = Some (preorder_dump tree_ab ++ [x01; x60])
  /\ descend tree_ab [true]
     = Some (TreeBranch (TreeLeaf (Some 98)) (TreeLeaf None))
  /\ decode_byte tree_ab {| r_pending := [true] |} (IStream [] 0)
     = (Ok None, {| r_pending := [] |}, IStream [] 0)
  /\ decompress preorder_load 7
       (IStream (preorder_dump tree_ab ++ [x01]) 0) []
     = Some {| returned := Ok tt;
               in_stream := IStream (preorder_dump tree_ab ++ [x01]) 8;
               reader := {| r_pending := [] |};
               writer := {| w_pending := [] |};
               out_stream := [x61; x61; x61; x61; x61; x61; x61];
               printed := [] |}.
Proof. repeat split; vm_compute; reflexivity. Qed.

(** C1. For a tree that has a leaf for the sentinel and for every byte of
    the input, and a description format that reads back what it wrote,
    [compress] into a fresh stream returns normally, and [decompress] on
    what it wrote, from whatever position, returns normally with the input
    as its output; so too for the empty input. *)
Theorem compress_decompress_roundtrip
    (pickle_dump : tree -> list byte)
    (pickle_load : istream -> result (option tree) * istream)
    (t : tree) (uncompressed : istream) (fuel_c fuel_d : nat) :
  (forall payload,
     pickle_load (IStream (pickle_dump t ++ payload) 0)
     = (Ok (Some t),
        IStream (pickle_dump t ++ payload) (length (pickle_dump t)))) ->
  None ∈ leaf_values t ->
  (forall b, b ∈ unread uncompressed -> Some (byte_value b) ∈ leaf_values t) ->
  (length (unread uncompressed) < fuel_c)%nat ->
  (length (unread uncompressed) <= fuel_d)%nat ->
  exists c,
    compress pickle_dump fuel_c t uncompressed [] = Some c
    /\ returned c = Ok tt
    /\ forall p, exists d,
         decompress pickle_load fuel_d (IStream (out_stream c) p) [] = Some d
         /\ returned d = Ok tt
         /\ out_stream d = unread uncompressed.
Proof.
  intros Hpickle Hsent Hcov Hfc Hfd.
  pose proof (covered_encodable t _ Hcov) as Henc.
  destruct (table_covers t None Hsent) as (code & Hcode & Hleaf).
  destruct (compress_ok pickle_dump t uncompressed [] fuel_c code
              Henc Hcode Hfc)
    as (c & payload & k & Hc & Hret & Hout & Hbits & Hk & _).
  exists c. split; [done|]. split; [done|]. intros p.
  simpl in Hout. rewrite Hout.
  destruct (decompress_payload pickle_load
              (IStream (pickle_dump t ++ payload) p)
              (IStream (pickle_dump t ++ payload) (length (pickle_dump t)))
              t (symbols_of (make_encoding_table t) (unread uncompressed))
              (code ++ replicate k false) (replicate k false) [] fuel_d)
    as (d & Hd & Hdret & Hdout & _).
  - apply Hpickle.
  - by apply spelled_symbols_of.
  - intros r s Hr. by apply (decode_byte_leaf t code).
  - unfold unread. simpl. rewrite drop_app_length.
    by rewrite payload_bits_symbols_of.
  - unfold symbols_of. by rewrite length_fmap.
  - exists d. split; [done|]. split; [done|].
    by rewrite Hdout, payload_bytes_symbols_of.
Qed.

Lemma compress_decompress_roundtrip_witness :
  (exists c,
     compress preorder_dump 3 tree_ab (IStream [x61; x62] 0) [] = Some c
     /\ returned c = Ok tt
     /\ forall p, exists d,
          decompress preorder_load 2 (IStream (out_stream c) p) [] = Some d
          /\ returned d = Ok tt
          /\ out_stream d = [x61; x62])
  /\ (exists c,
        compress preorder_dump 1 tree_ab (IStream [] 0) [] = Some c
        /\ returned c = Ok tt
        /\ forall p, exists d,
             decompress preorder_load 0 (IStream (out_stream c) p) [] = Some d
             /\ returned d = Ok tt
             /\ out_stream d = []).
Proof.
  split.
  - apply (compress_decompress_roundtrip preorder_dump preorder_load tree_ab
             (IStream [x61; x62] 0) 3 2).
    + intros payload. reflexivity.
    + apply list_elem_of_In. simpl. tauto.
    + intros b Hb. apply list_elem_of_In in Hb. apply list_elem_of_In.
      simpl in Hb. destruct Hb as [<-|[<-|[]]]; simpl; tauto.
    + simpl. lia.
    + simpl. lia.
  - apply (compress_decompress_roundtrip preorder_dump preorder_load tree_ab
             (IStream [] 0) 1 0).
    + intros payload. reflexivity.
    + apply list_elem_of_In. simpl. tauto.
    + intros b Hb. apply list_elem_of_In in Hb. destruct Hb.
    + simpl. lia.
    + simpl. lia.
Defined.

(** C5. When every byte of the input has an entry in the table and the
    sentinel has one, [compress] writes, after the tree description, the
    codes of the input bytes, then the code of the sentinel, then flushes:
    the payload is a whole number of bytes, and the fewer than eight bits
    after the code of the sentinel are all 0. *)
Theorem compress_end_marker_and_padding
    (pickle_dump : tree -> list byte) (t : tree) (uncompressed : istream)
    (compressed : ostream) (fuel : nat) (code : list bool) :
  encodable (make_encoding_table t) (unread uncompressed) ->
  make_encoding_table t !! None = Some code ->
  (length (unread uncompressed) < fuel)%nat ->
  exists c payload k,
    compress pickle_dump fuel t uncompressed compressed = Some c
    /\ returned c = Ok tt
    /\ out_stream c = compressed ++ pickle_dump t ++ payload
    /\ bits_of_bytes payload
       = encode (make_encoding_table t) (unread uncompressed)
         ++ code ++ replicate k false
    /\ (k < 8)%nat
    /\ (length (encode (make_encoding_table t) (unread uncompressed) ++ code)
        + k = 8 * length payload)%nat
    /\ w_pending (writer c) = [].
Proof.
  intros Henc Hcode Hfuel.
  destruct (compress_ok pickle_dump t uncompressed compressed fuel code
              Henc Hcode Hfuel)
    as (c & payload & k & Hc & Hret & Hout & Hbits & Hk & Hw & _).
  exists c, payload, k. repeat split; try done.
  rewrite <- bits_of_bytes_length, Hbits, !length_app, length_replicate. lia.
Qed.

Lemma compress_end_marker_and_padding_witness :
  exists c payload k,
    compress preorder_dump 3 tree_ab (IStream [x61; x62] 0) [x2a] = Some c
    /\ returned c = Ok tt
    /\ out_stream c = [x2a] ++ preorder_dump tree_ab ++ payload
    /\ bits_of_bytes payload
       = encode (make_encoding_table tree_ab) [x61; x62]
         ++ [true; true] ++ replicate k false
    /\ (k < 8)%nat
    /\ (length (encode (make_encoding_table tree_ab) [x61; x62] ++ [true; true])
        + k = 8 * length payload)%nat
    /\ w_pending (writer c) = [].
Proof.
  apply (compress_end_marker_and_padding preorder_dump tree_ab
           (IStream [x61; x62] 0) [x2a] 3 [true; true]).
  - repeat constructor; vm_compute; eexists; reflexivity.
  - vm_compute. reflexivity.
  - simpl. lia.
Defined.

(** C6. On the first byte of the input that has no entry in the table,
    [compress] raises [KeyError], the lookup failure of [table[byte]], and
    the exception leaves [compress]: the codes of the bytes before it are
    all that went to the writer, nothing is written for the byte, and the
    bytes after it are not read. *)
Theorem compress_unencodable_symbol
    (pickle_dump : tree -> list byte) (t : tree) (uncompressed : istream)
    (compressed : ostream) (fuel : nat) (pre : list byte) (b : byte)
    (post : list byte) :
  unread uncompressed = pre ++ b :: post ->
  encodable (make_encoding_table t) pre ->
  make_encoding_table t !! Some (byte_value b) = None ->
  (length pre < fuel)%nat ->
  exists c e,
    compress pickle_dump fuel t uncompressed compressed = Some c
    /\ returned c = Raise KeyError
    /\ out_stream c = compressed ++ pickle_dump t ++ e
    /\ bits_of_bytes e ++ w_pending (writer c)
       = encode (make_encoding_table t) pre
    /\ remaining_bits (reader c) (in_stream c) = bits_of_bytes post.
Proof. apply compress_KeyError. Qed.

Lemma compress_unencodable_symbol_witness :
  exists c e,
    compress preorder_dump 2 tree_ab (IStream [x61; x63; x61] 0) [] = Some c
    /\ returned c = Raise KeyError
    /\ out_stream c = [] ++ preorder_dump tree_ab ++ e
    /\ bits_of_bytes e ++ w_pending (writer c)
       = encode (make_encoding_table tree_ab) [x61]
    /\ remaining_bits (reader c) (in_stream c) = bits_of_bytes [x61].
Proof.
  apply (compress_unencodable_symbol preorder_dump tree_ab
           (IStream [x61; x63; x61] 0) [] 2 [x61] x63 [x61]).
  - reflexivity.
  - repeat constructor; vm_compute; eexists; reflexivity.
  - vm_compute. reflexivity.
  - simpl. lia.
Defined.

(** C10. When the table has no entry for the sentinel, [compress] raises
    [KeyError]. When the bytes of the input all have an entry, this happens
    once the input is exhausted, at [table[None]]: the codes of the input
    have gone to the writer, no end marker follows them, and the writer is
    not flushed. *)
Theorem compress_missing_sentinel_entry
    (pickle_dump : tree -> list byte) (t : tree) (uncompressed : istream)
    (compressed : ostream) (fuel : nat) :
  make_encoding_table t !! None = None ->
  (length (unread uncompressed) < fuel)%nat ->
  exists c,
    compress pickle_dump fuel t uncompressed compressed = Some c
    /\ returned c = Raise KeyError
    /\ (encodable (make_encoding_table t) (unread uncompressed) ->
        remaining_bits (reader c) (in_stream c) = []
        /\ exists e,
             out_stream c = compressed ++ pickle_dump t ++ e
             /\ bits_of_bytes e ++ w_pending (writer c)
                = encode (make_encoding_table t) (unread uncompressed)).
Proof.
  intros Hnone Hfuel.
  destruct (encodable_split (make_encoding_table t) (unread uncompressed))
    as [Henc|(pre & b & post & Hin & Hpre & Hb)].
  - destruct (compress_no_sentinel pickle_dump t uncompressed compressed fuel
                Henc Hnone Hfuel) as (c & e & Hc & Hret & Hout & Hbits & Hr).
    exists c. split; [done|]. split; [done|]. intros _. split; [done|].
    by exists e.
  - destruct (compress_KeyError pickle_dump t uncompressed compressed fuel
                pre b post Hin Hpre Hb) as (c & e & Hc & Hret & _).
    { rewrite Hin, length_app in Hfuel. simpl in Hfuel. lia. }
    exists c. split; [done|]. split; [done|]. intros Henc.
    rewrite Hin in Henc. apply Forall_app in Henc as [_ Henc].
    apply Forall_cons in Henc as [[code Hcode] _]. congruence.
Qed.

Lemma compress_missing_sentinel_entry_witness :
  exists c,
    compress preorder_dump 3 tree_no_sentinel (IStream [x61; x62] 0) [] = Some c
    /\ returned c = Raise KeyError
    /\ (encodable (make_encoding_table tree_no_sentinel)
          (unread (IStream [x61; x62] 0)) ->
        remaining_bits (reader c) (in_stream c) = []
        /\ exists e,
             out_stream c = [] ++ preorder_dump tree_no_sentinel ++ e
             /\ bits_of_bytes e ++ w_pending (writer c)
                = encode (make_encoding_table tree_no_sentinel)
                    (unread (IStream [x61; x62] 0))).
Proof.
  apply (compress_missing_sentinel_entry preorder_dump tree_no_sentinel
           (IStream [x61; x62] 0) [] 3).
  - vm_compute. reflexivity.
  - simpl. lia.
Defined.

(** * Further properties of [util.py] *)

(** ** [decode_byte] on any tree and any source *)

Lemma descend_height (t : tree) :
  forall path t',
    descend t path = Some t' -> (length path + height t' <= height t)%nat.
Proof.
  induction t as [v|l IHl r IHr]; intros path t' H.
  - destruct path; simpl in H; [|done]. injection H as <-. simpl. lia.
  - destruct path as [|b path]; simpl in H.
    + injection H as <-. simpl. lia.
    + destruct b; [apply IHr in H|apply IHl in H]; simpl; lia.
Qed.

Lemma descend_leaf_value (t : tree) :
  forall path value,
    descend t path = Some (TreeLeaf value) -> value ∈ leaf_values t.
Proof.
  induction t as [v|l IHl r IHr]; intros path value H.
  - destruct path; simpl in H; [|done]. injection H as <-.
    simpl. apply list_elem_of_singleton. done.
  - destruct path as [|b path]; simpl in H; [done|].
    simpl. apply elem_of_app. destruct b; eauto.
Qed.

Lemma decode_byte_cases (t : tree) (r : BitReader) (s : istream) :
  exists value r' s' consumed,
    decode_byte t r s = (Ok value, r', s')
    /\ remaining_bits r s = consumed ++ remaining_bits r' s'
    /\ (descend t consumed = Some (TreeLeaf value)
        \/ (value = None /\ remaining_bits r' s' = []
            /\ exists l r0, descend t consumed = Some (TreeBranch l r0))).
Proof.
  destruct (descend_cases t (remaining_bits r s))
    as [(path & rest & value & Hb & Hd)|(l & r0 & Hd)].
  - destruct (decode_byte_leaf t path value r s rest Hd Hb)
      as (r' & s' & E & Hr).
    exists value, r', s', path. rewrite Hr. auto.
  - destruct (decode_byte_cut t r s l r0 Hd) as (r' & s' & E & Hr).
    exists None, r', s', (remaining_bits r s). rewrite Hr, app_nil_r.
    split; [done|]. split; [done|]. right. eauto.
Qed.

(** X1. Whatever the tree and the source, [decode_byte] returns and raises
    nothing. The bits it consumed are a prefix of the source, at most as
    many as the tree is high; they lead from the root to the leaf whose
    value is returned, or, when [None] is returned for want of bits, to an
    internal node, with the source exhausted. *)
Theorem decode_byte_outcome (t : tree) (r : BitReader) (s : istream) :
  exists value r' s' consumed,
    decode_byte t r s = (Ok value, r', s')
    /\ remaining_bits r s = consumed ++ remaining_bits r' s'
    /\ (length consumed <= height t)%nat
    /\ (descend t consumed = Some (TreeLeaf value)
        \/ (value = None /\ remaining_bits r' s' = []
            /\ exists l r0, descend t consumed = Some (TreeBranch l r0))).
Proof.
  destruct (decode_byte_cases t r s)
    as (value & r' & s' & consumed & E & Hb & Hc).
  exists value, r', s', consumed. split; [done|]. split; [done|].
  split; [|done].
  destruct Hc as [Hd|(_ & _ & l & r0 & Hd)];
    apply descend_height in Hd; lia.
Qed.

(** X2. The value [decode_byte] returns is [None] or the value of a leaf
    of the tree: no symbol comes out that the tree does not hold. *)
Theorem decode_byte_value_in_tree (t : tree) (r : BitReader) (s : istream)
    (value : option Z) (r' : BitReader) (s' : istream) :
  decode_byte t r s = (Ok value, r', s') ->
  value = None \/ value ∈ leaf_values t.
Proof.
  intros E.
  destruct (decode_byte_cases t r s)
    as (v & r1 & s1 & consumed & E1 & _ & Hc).
  rewrite E in E1. injection E1 as -> -> ->.
  destruct Hc as [Hd|(-> & _)]; [|by left].
  right. by apply (descend_leaf_value t consumed).
Qed.

Lemma decode_byte_value_in_tree_witness :
  Some 98 = None \/ Some 98 ∈ leaf_values tree_ab.
Proof.
  apply (decode_byte_value_in_tree tree_ab new_BitReader (IStream [x80] 0)
           (Some 98) {| r_pending := [false; false; false; false; false; false] |}
           (IStream [x80] 1)).
  reflexivity.
Defined.

(** ** [decompress] on any payload *)

Lemma decode_loop_safe (t : tree) :
  forall fuel value r s w out res r' s' w' out',
    w_pending w = [] ->
    (forall z, value = Some z -> Some z ∈ leaf_values t) ->
    decode_loop fuel t value r s w out = Some (res, r', s', w', out') ->
    res = Ok tt /\ w_pending w' = []
    /\ exists bs, out' = out ++ bs /\ Forall (symbol_byte t) bs.
Proof.
  induction fuel as [|fuel IH];
    intros value r s w out res r' s' w' out' Hw Hv H.
  - destruct value as [z|]; simpl in H; [done|].
    injection H as <- _ _ <- <-. split; [done|]. split; [done|].
    exists []. by rewrite app_nil_r.
  - destruct value as [z|].
    + rewrite decode_loop_step, (writebits_8_aligned _ _ _ Hw) in H.
      destruct (decode_byte_cases t r s)
        as (v1 & r1 & s1 & consumed & E & _ & Hc).
      rewrite E in H.
      apply IH in H as (-> & Hw' & bs & -> & Hbs); [|done|].
      * split; [done|]. split; [done|].
        exists (low_byte z :: bs). split; [by rewrite <- app_assoc|].
        constructor; [|done]. exists z. split; [by apply Hv|done].
      * intros z1 ->. destruct Hc as [Hd|(Hn & _)]; [|done].
        by apply (descend_leaf_value t consumed).
    + simpl in H. injection H as <- _ _ <- <-. split; [done|]. split; [done|].
      exists []. by rewrite app_nil_r.
Qed.

Lemma decode_loop_branch (l r0 : tree) :
  forall fuel value r s w out,
    w_pending w = [] ->
    (value = None \/ (length (remaining_bits r s) < fuel)%nat) ->
    exists r' s' bs,
      decode_loop fuel (TreeBranch l r0) value r s w out
      = Some (Ok tt, r', s', {| w_pending := [] |}, out ++ bs)
      /\ (length bs <= match value with
                       | None => 0
                       | Some _ => S (length (remaining_bits r s))
                       end)%nat.
Proof.
  induction fuel as [|fuel IH]; intros value r s w out Hw Hf.
  - destruct value as [z|]; [destruct Hf as [?|?]; [done|lia]|].
    destruct w as [pw]; simpl in Hw; subst pw.
    exists r, s, []. rewrite app_nil_r. split; [done|simpl; lia].
  - destruct value as [z|].
    + destruct Hf as [?|Hf]; [done|].
      rewrite decode_loop_step, (writebits_8_aligned _ _ _ Hw).
      destruct (decode_byte_cases (TreeBranch l r0) r s)
        as (v1 & r1 & s1 & consumed & E & Hb & Hc).
      rewrite E.
      destruct (IH v1 r1 s1 {| w_pending := [] |} (out ++ [low_byte z]))
        as (r' & s' & bs & L & Hlen); [done| |].
      * destruct Hc as [Hd|(-> & _)]; [|by left].
        right. destruct consumed as [|b consumed]; [done|].
        rewrite Hb in Hf. simpl in Hf. rewrite length_app in Hf. lia.
      * exists r', s', (low_byte z :: bs). rewrite L.
        split; [by rewrite <- app_assoc|].
        simpl. destruct v1 as [z1|]; [|lia].
        destruct Hc as [Hd|(? & _)]; [|done].
        destruct consumed as [|b consumed]; [done|].
        rewrite Hb. simpl. rewrite length_app. lia.
    + destruct w as [pw]; simpl in Hw; subst pw.
      exists r, s, []. rewrite app_nil_r. split; [done|simpl; lia].
Qed.

Lemma decode_loop_symbol_leaf (z : Z) :
  forall fuel v r s w out,
    decode_loop fuel (TreeLeaf (Some z)) (Some v) r s w out = None.
Proof.
  induction fuel as [|fuel IH]; intros v r s w out; [done|].
  rewrite decode_loop_step. destruct (writebits v 8 w out) as [w' out'].
  simpl. apply IH.
Qed.

(** X3. Whenever [decompress] has read a tree and comes back, it comes back
    normally, with the writer flushed; the output stream keeps what it held
    and receives only bytes that are symbols of leaves of the tree. *)
Theorem decompress_writes_tree_symbols
    (pickle_load : istream -> result (option tree) * istream)
    (compressed s1 : istream) (t : tree) (uncompressed : ostream)
    (fuel : nat) (d : final) :
  pickle_load (seek 0 compressed) = (Ok (Some t), s1) ->
  decompress pickle_load fuel compressed uncompressed = Some d ->
  returned d = Ok tt
  /\ w_pending (writer d) = []
  /\ exists bs, out_stream d = uncompressed ++ bs /\ Forall (symbol_byte t) bs.
Proof.
  intros Hload H. unfold decompress, read_tree in H. rewrite Hload in H.
  destruct (decode_byte_cases t new_BitReader s1)
    as (v & r1 & s1' & consumed & E & _ & Hc).
  rewrite E in H.
  destruct (decode_loop fuel t v r1 s1' new_BitWriter uncompressed)
    as [[[[[res r'] s'] w'] out']|] eqn:L; [|done].
  apply decode_loop_safe in L as (-> & Hw' & bs & -> & Hbs); [|done|].
  - destruct w' as [pw]; simpl in Hw'; subst pw. simpl in H.
    injection H as <-. simpl. split; [done|]. split; [done|]. by exists bs.
  - intros z ->. destruct Hc as [Hd|(Hn & _)]; [|done].
    by apply (descend_leaf_value t consumed).
Qed.

Lemma decompress_writes_tree_symbols_witness :
  exists d,
    decompress preorder_load 4
      (IStream (preorder_dump tree_ab ++ [xa5]) 0) [x2a] = Some d
    /\ returned d = Ok tt
    /\ w_pending (writer d) = []
    /\ exists bs, out_stream d = [x2a] ++ bs /\ Forall (symbol_byte tree_ab) bs.
Proof.
  eexists. split; [vm_compute; reflexivity|].
  apply (decompress_writes_tree_symbols preorder_load
           (IStream (preorder_dump tree_ab ++ [xa5]) 0)
           (IStream (preorder_dump tree_ab ++ [xa5]) 7)
           tree_ab [x2a] 4).
  - reflexivity.
  - vm_compute. reflexivity.
Defined.



(** X5. When the tree read is not a lone symbol leaf, [decompress] comes
    back whatever bytes the payload is made of: one iteration of its loop
    per payload bit is enough, it returns normally, and it writes at most
    one byte per payload bit. *)
Theorem decompress_terminates
    (pickle_load : istream -> result (option tree) * istream)
    (compressed s1 : istream) (t : tree) (uncompressed : ostream)
    (fuel : nat) :
  pickle_load (seek 0 compressed) = (Ok (Some t), s1) ->
  (forall z, t <> TreeLeaf (Some z)) ->
  (8 * length (unread s1) <= fuel)%nat ->
  exists d bs,
    decompress pickle_load fuel compressed uncompressed = Some d
    /\ returned d = Ok tt
    /\ out_stream d = uncompressed ++ bs
    /\ (length bs <= 8 * length (unread s1))%nat.
Proof.
  intros Hload Ht Hfuel. unfold decompress, read_tree. rewrite Hload.
  destruct t as [[z|]|l r0].
  - by destruct (Ht z).
  - simpl. eexists _, []. destruct fuel; simpl;
      (split; [reflexivity|]); simpl; rewrite app_nil_r;
      (split; [done|]); (split; [done|lia]).
  - destruct (decode_byte_cases (TreeBranch l r0) new_BitReader s1)
      as (v & r1 & s1' & consumed & E & Hb & Hc).
    rewrite E.
    rewrite remaining_bits_new in Hb.
    pose proof (bits_of_bytes_length (unread s1)) as Hlen.
    rewrite Hb, length_app in Hlen.
    destruct (decode_loop_branch l r0 fuel v r1 s1' new_BitWriter uncompressed)
      as (r' & s' & bs & L & Hbs); [done| |].
    + destruct Hc as [Hd|(-> & _)]; [|by left].
      right. destruct consumed as [|b consumed]; [done|].
      simpl in Hlen. lia.
    + rewrite L. simpl. eexists _, bs. split; [reflexivity|]. simpl.
      split; [done|]. split; [done|].
      destruct v as [z|]; [|lia].
      destruct Hc as [Hd|(? & _)]; [|done].
      destruct consumed as [|b consumed]; [done|].
      simpl in Hlen. lia.
Qed.

Lemma decompress_terminates_witness :
  exists d bs,
    decompress preorder_load 16
      (IStream (preorder_dump tree_ab ++ [xa5; x00]) 0) [] = Some d
    /\ returned d = Ok tt
    /\ out_stream d = [] ++ bs
    /\ (length bs
        <= 8 * length (unread (IStream (preorder_dump tree_ab ++ [xa5; x00]) 7)))%nat.
Proof.
  apply (decompress_terminates preorder_load
           (IStream (preorder_dump tree_ab ++ [xa5; x00]) 0)
           (IStream (preorder_dump tree_ab ++ [xa5; x00]) 7)
           tree_ab [] 16).
  - reflexivity.
  - intros z. discriminate.
  - vm_compute. lia.
Defined.

(** X6. When the tree read is a lone leaf that holds a symbol, every
    [decode_byte] returns that symbol without reading a bit, so the loop
    of [decompress] never ends: no number of iterations brings
    [decompress] back. *)
Theorem decompress_symbol_leaf_diverges
    (pickle_load : istream -> result (option tree) * istream)
    (compressed s1 : istream) (z : Z) (uncompressed : ostream) :
  pickle_load (seek 0 compressed) = (Ok (Some (TreeLeaf (Some z))), s1) ->
  forall fuel, decompress pickle_load fuel compressed uncompressed = None.
Proof.
  intros Hload fuel. unfold decompress, read_tree. rewrite Hload. simpl.
  by rewrite decode_loop_symbol_leaf.
Qed.

Lemma decompress_symbol_leaf_diverges_witness :
  decompress preorder_load 1000 (IStream [x01; x61; x00] 0) [] = None.
Proof.
  refine (decompress_symbol_leaf_diverges preorder_load
            (IStream [x01; x61; x00] 0) (IStream [x01; x61; x00] 2) 97 []
            _ 1000).
  reflexivity.
Defined.

(** ** [compress] on any tree and any input *)

Lemma compress_outcome
    (pickle_dump : tree -> list byte) (t : tree) (uncompressed : istream)
    (compressed : ostream) (fuel : nat) :
  (length (unread uncompressed) < fuel)%nat ->
  exists c e,
    compress pickle_dump fuel t uncompressed compressed = Some c
    /\ out_stream c = compressed ++ pickle_dump t ++ e
    /\ ((returned c = Ok tt
         /\ encodable (make_encoding_table t) (unread uncompressed)
         /\ is_Some (make_encoding_table t !! None))
        \/ (returned c = Raise KeyError
            /\ ~ (encodable (make_encoding_table t) (unread uncompressed)
                  /\ is_Some (make_encoding_table t !! None)))).
Proof.
  intros Hfuel.
  destruct (encodable_split (make_encoding_table t) (unread uncompressed))
    as [Henc|(pre & b & post & Hin & Hpre & Hb)].
  - destruct (make_encoding_table t !! None) as [code|] eqn:Hnone.
    + destruct (compress_ok pickle_dump t uncompressed compressed fuel code
                  Henc Hnone Hfuel)
        as (c & payload & k & Hc & Hret & Hout & _).
      exists c, payload. split; [done|]. split; [done|]. left. eauto.
    + destruct (compress_no_sentinel pickle_dump t uncompressed compressed
                  fuel Henc Hnone Hfuel) as (c & e & Hc & Hret & Hout & _).
      exists c, e. split; [done|]. split; [done|]. right.
      split; [done|]. intros [_ [code Hcode]]. done.
  - destruct (compress_KeyError pickle_dump t uncompressed compressed fuel
                pre b post Hin Hpre Hb) as (c & e & Hc & Hret & Hout & _).
    { rewrite Hin, length_app in Hfuel. simpl in Hfuel. lia. }
    exists c, e. split; [done|]. split; [done|]. right.
    split; [done|]. intros [Henc _].
    rewrite Hin in Henc. apply Forall_app in Henc as [_ Henc].
    apply Forall_cons in Henc as [[code Hcode] _]. congruence.
Qed.

(** X7. [compress] always comes back: one iteration of its loop per input
    byte and one more are enough. It returns normally or raises [KeyError],
    no other exception; in both cases the output stream keeps what it held
    and the tree description is the first thing added to it. *)
Theorem compress_terminates
    (pickle_dump : tree -> list byte) (t : tree) (uncompressed : istream)
    (compressed : ostream) (fuel : nat) :
  (length (unread uncompressed) < fuel)%nat ->
  exists c e,
    compress pickle_dump fuel t uncompressed compressed = Some c
    /\ (returned c = Ok tt \/ returned c = Raise KeyError)
    /\ out_stream c = compressed ++ pickle_dump t ++ e
    /\ printed c = [].
Proof.
  intros Hfuel.
  destruct (compress_outcome pickle_dump t uncompressed compressed fuel Hfuel)
    as (c & e & Hc & Hout & Hcases).
  exists c, e. split; [done|]. split; [tauto|]. split; [done|].
  unfold compress in Hc.
  destruct (encode_loop fuel (make_encoding_table t) new_BitReader
              uncompressed new_BitWriter (write_tree pickle_dump t compressed))
    as [[[[[[[]|e1] r'] s'] w'] out']|]; [| |done].
  - destruct (flush w' out'). by injection Hc as <-.
  - by injection Hc as <-.
Qed.

Lemma compress_terminates_witness :
  exists c e,
    compress preorder_dump 4 tree_ab (IStream [x61; x63; x62] 0) [x2a] = Some c
    /\ (returned c = Ok tt \/ returned c = Raise KeyError)
    /\ out_stream c = [x2a] ++ preorder_dump tree_ab ++ e
    /\ printed c = [].
Proof.
  apply (compress_terminates preorder_dump tree_ab
           (IStream [x61; x63; x62] 0) [x2a] 4).
  simpl. lia.
Defined.

(** X8. [compress] returns normally exactly when every byte of the input
    and the sentinel have an entry in the encoding table of the tree;
    otherwise it raises [KeyError]. *)
Theorem compress_returns_normally_iff
    (pickle_dump : tree -> list byte) (t : tree) (uncompressed : istream)
    (compressed : ostream) (fuel : nat) :
  (length (unread uncompressed) < fuel)%nat ->
  exists c,
    compress pickle_dump fuel t uncompressed compressed = Some c
    /\ (returned c = Ok tt <->
        encodable (make_encoding_table t) (unread uncompressed)
        /\ is_Some (make_encoding_table t !! None))
    /\ (returned c = Raise KeyError <->
        ~ (encodable (make_encoding_table t) (unread uncompressed)
           /\ is_Some (make_encoding_table t !! None))).
Proof.
  intros Hfuel.
  destruct (compress_outcome pickle_dump t uncompressed compressed fuel Hfuel)
    as (c & e & Hc & Hout & [(Hret & Henc & Hs)|(Hret & Hn)]).
  - exists c. split; [done|]. rewrite Hret. split; split; try done.
    intros Hn. by destruct Hn.
  - exists c. split; [done|]. rewrite Hret. split; split; done.
Qed.

Lemma compress_returns_normally_iff_witness :
  exists c,
    compress preorder_dump 3 tree_ab (IStream [x61; x62] 0) [] = Some c
    /\ (returned c = Ok tt <->
        encodable (make_encoding_table tree_ab) (unread (IStream [x61; x62] 0))
        /\ is_Some (make_encoding_table tree_ab !! None))
    /\ (returned c = Raise KeyError <->
        ~ (encodable (make_encoding_table tree_ab)
             (unread (IStream [x61; x62] 0))
           /\ is_Some (make_encoding_table tree_ab !! None))).
Proof.
  apply (compress_returns_normally_iff preorder_dump tree_ab
           (IStream [x61; x62] 0) [] 3).
  simpl. lia.
Defined.

(** ** [compress] then [decompress] *)

(** X9. [decompress] reads no further than the sentinel: on what
    [compress] wrote into a fresh stream, followed by any bytes at all, it
    returns normally and appends the input of [compress] to what the output
    stream held. *)
Theorem decompress_ignores_trailing_bytes
    (pickle_dump : tree -> list byte)
    (pickle_load : istream -> result (option tree) * istream)
    (t : tree) (uncompressed : istream) (trailing : list byte)
    (output : ostream) (fuel_c fuel_d : nat) :
  (forall payload,
     pickle_load (IStream (pickle_dump t ++ payload) 0)
     = (Ok (Some t),
        IStream (pickle_dump t ++ payload) (length (pickle_dump t)))) ->
  None ∈ leaf_values t ->
  (forall b, b ∈ unread uncompressed -> Some (byte_value b) ∈ leaf_values t) ->
  (length (unread uncompressed) < fuel_c)%nat ->
  (length (unread uncompressed) <= fuel_d)%nat ->
  exists c,
    compress pickle_dump fuel_c t uncompressed [] = Some c
    /\ forall p, exists d,
         decompress pickle_load fuel_d
           (IStream (out_stream c ++ trailing) p) output = Some d
         /\ returned d = Ok tt
         /\ out_stream d = output ++ unread uncompressed
         /\ exists k,
              (k < 8)%nat
              /\ remaining_bits (reader d) (in_stream d)
                 = replicate k false ++ bits_of_bytes trailing.
Proof.
  intros Hpickle Hsent Hcov Hfc Hfd.
  pose proof (covered_encodable t _ Hcov) as Henc.
  destruct (table_covers t None Hsent) as (code & Hcode & Hleaf).
  destruct (compress_ok pickle_dump t uncompressed [] fuel_c code
              Henc Hcode Hfc)
    as (c & payload & k & Hc & Hret & Hout & Hbits & Hk & _).
  exists c. split; [done|]. intros p.
  simpl in Hout. rewrite Hout, <- app_assoc.
  destruct (decompress_payload pickle_load
              (IStream (pickle_dump t ++ payload ++ trailing) p)
              (IStream (pickle_dump t ++ payload ++ trailing)
                 (length (pickle_dump t)))
              t (symbols_of (make_encoding_table t) (unread uncompressed))
              (code ++ replicate k false ++ bits_of_bytes trailing)
              (replicate k false ++ bits_of_bytes trailing) output fuel_d)
    as (d & Hd & Hdret & Hdout & _ & _ & Hrest).
  - apply Hpickle.
  - by apply spelled_symbols_of.
  - intros r s Hr. by apply (decode_byte_leaf t code).
  - unfold unread. simpl. rewrite drop_app_length.
    rewrite bits_of_bytes_app, Hbits, payload_bits_symbols_of.
    by rewrite <- !app_assoc.
  - unfold symbols_of. by rewrite length_fmap.
  - exists d. split; [done|]. split; [done|].
    split; [by rewrite Hdout, payload_bytes_symbols_of|].
    by exists k.
Qed.

Lemma decompress_ignores_trailing_bytes_witness :
  exists c,
    compress preorder_dump 3 tree_ab (IStream [x61; x62] 0) [] = Some c
    /\ forall p, exists d,
         decompress preorder_load 2
           (IStream (out_stream c ++ [xff; x58]) p) [x2a] = Some d
         /\ returned d = Ok tt
         /\ out_stream d = [x2a] ++ [x61; x62]
         /\ exists k,
              (k < 8)%nat
              /\ remaining_bits (reader d) (in_stream d)
                 = replicate k false ++ bits_of_bytes [xff; x58].
Proof.
  apply (decompress_ignores_trailing_bytes preorder_dump preorder_load tree_ab
           (IStream [x61; x62] 0) [xff; x58] [x2a] 3 2).
  - intros payload. reflexivity.
  - apply list_elem_of_In. simpl. tauto.
  - intros b Hb. apply list_elem_of_In in Hb. apply list_elem_of_In.
    simpl in Hb. destruct Hb as [<-|[<-|[]]]; simpl; tauto.
  - simpl. lia.
  - simpl. lia.
Defined.


(** ** A container cut short *)

Lemma descend_proper_prefix (t : tree) :
  forall p b q t',
    descend t (p ++ b :: q) = Some t' ->
    exists l r, descend t p = Some (TreeBranch l r).
Proof.
  induction t as [v|l IHl r IHr]; intros p b q t' H.
  - destruct p; simpl in H; done.
  - destruct p as [|c p]; simpl in *; [eauto|].
    destruct c; eauto.
Qed.

(** [decode_byte] on a source that is a prefix of a bit sequence starting
    with the path of a leaf: the leaf's value when the whole path is there,
    [None] when the source ends inside the path. *)
Lemma decode_byte_prefix (t : tree) (path : list bool) (value : option Z)
    (bits rest after : list bool) (r : BitReader) (s : istream) :
  descend t path = Some (TreeLeaf value) ->
  bits ++ rest = path ++ after ->
  remaining_bits r s = bits ->
  (exists bits' r' s',
     bits' ++ rest = after
     /\ decode_byte t r s = (Ok value, r', s')
     /\ remaining_bits r' s' = bits')
  \/ (exists r' s', decode_byte t r s = (Ok None, r', s')).
Proof.
  intros Hd Happ Hr.
  apply app_eq_inv in Happ as [(k & -> & ->)|(k & -> & ->)].
  - left. destruct (decode_byte_leaf t path value r s k Hd Hr)
      as (r' & s' & E & Hr').
    by exists k, r', s'.
  - destruct k as [|b k].
    + rewrite app_nil_r in Hd. rewrite <- (app_nil_r bits) in Hr.
      left. destruct (decode_byte_leaf t bits value r s [] Hd Hr)
        as (r' & s' & E & Hr').
      by exists [], r', s'.
    + right. apply descend_proper_prefix in Hd as (l & r0 & Hd).
      rewrite <- Hr in Hd.
      destruct (decode_byte_cut t r s l r0 Hd) as (r' & s' & E & _).
      eauto.
Qed.

Lemma decode_loop_of_prefix (t : tree) (sentinel : list bool) :
  descend t sentinel = Some (TreeLeaf None) ->
  forall symbols,
    spelled t symbols ->
    forall bits rest after fuel r s w out,
      bits ++ rest = payload_bits symbols ++ sentinel ++ after ->
      remaining_bits r s = bits ->
      (length symbols <= fuel)%nat ->
      w_pending w = [] ->
      exists value r1 s1 r' s' m,
        decode_byte t r s = (Ok value, r1, s1)
        /\ decode_loop fuel t value r1 s1 w out
           = Some (Ok tt, r', s', {| w_pending := [] |},
                   out ++ payload_bytes (take m symbols)).
Proof.
  intros Hsent. induction symbols as [|[z p] symbols IH];
    intros Hsp bits rest after fuel r s w out Happ Hr Hfuel Hw.
  - destruct w as [pw]; simpl in Hw; subst pw.
    destruct (decode_byte_prefix t sentinel None bits rest after r s
                Hsent Happ Hr)
      as [(bits' & r' & s' & _ & E & _)|(r' & s' & E)];
      exists None, r', s', r', s', 0%nat; (split; [done|]);
      destruct fuel; simpl; by rewrite app_nil_r.
  - apply Forall_cons in Hsp as [Hp Hsp]. simpl in Hp.
    unfold payload_bits in Happ. simpl in Happ. rewrite <- app_assoc in Happ.
    destruct (decode_byte_prefix t p (Some z) bits rest _ r s Hp Happ Hr)
      as [(bits' & r1 & s1 & Happ' & E & Hr1)|(r' & s' & E)].
    + destruct fuel as [|fuel]; [simpl in Hfuel; lia|].
      destruct (IH Hsp bits' rest after fuel r1 s1 {| w_pending := [] |}
                  (out ++ [low_byte z]))
        as (value & r2 & s2 & r' & s' & m & E2 & L);
        [done|done|simpl in Hfuel; lia|done|].
      exists (Some z), r1, s1, r', s', (S m). split; [done|].
      rewrite decode_loop_step, (writebits_8_aligned _ _ _ Hw), E2, L.
      unfold payload_bytes. simpl. by rewrite <- app_assoc.
    + destruct w as [pw]; simpl in Hw; subst pw.
      exists None, r', s', r', s', 0%nat. split; [done|].
      destruct fuel; simpl; by rewrite app_nil_r.
Qed.

(** X10. A container that [compress] wrote, cut after any number of bytes
    of its payload, is not refused by [decompress]: it returns normally,
    and what it appends to the output is a prefix of the input of
    [compress]. *)
Theorem decompress_truncated_container
    (pickle_dump : tree -> list byte)
    (pickle_load : istream -> result (option tree) * istream)
    (t : tree) (uncompressed : istream) (output : ostream)
    (fuel_c fuel_d : nat) :
  (forall payload,
     pickle_load (IStream (pickle_dump t ++ payload) 0)
     = (Ok (Some t),
        IStream (pickle_dump t ++ payload) (length (pickle_dump t)))) ->
  None ∈ leaf_values t ->
  (forall b, b ∈ unread uncompressed -> Some (byte_value b) ∈ leaf_values t) ->
  (length (unread uncompressed) < fuel_c)%nat ->
  (length (unread uncompressed) <= fuel_d)%nat ->
  exists c payload,
    compress pickle_dump fuel_c t uncompressed [] = Some c
    /\ out_stream c = pickle_dump t ++ payload
    /\ forall n p, exists d m,
         decompress pickle_load fuel_d
           (IStream (pickle_dump t ++ take n payload) p) output = Some d
         /\ returned d = Ok tt
         /\ out_stream d = output ++ take m (unread uncompressed).
Proof.
  intros Hpickle Hsent Hcov Hfc Hfd.
  pose proof (covered_encodable t _ Hcov) as Henc.
  destruct (table_covers t None Hsent) as (code & Hcode & Hleaf).
  destruct (compress_ok pickle_dump t uncompressed [] fuel_c code
              Henc Hcode Hfc)
    as (c & payload & k & Hc & Hret & Hout & Hbits & Hk & _).
  exists c, payload. split; [done|]. split; [done|]. intros n p.
  unfold decompress, read_tree, seek. cbn [content]. rewrite Hpickle.
  destruct (decode_loop_of_prefix t code Hleaf
              (symbols_of (make_encoding_table t) (unread uncompressed))
              (spelled_symbols_of t _ Henc)
              (bits_of_bytes (take n payload)) (bits_of_bytes (drop n payload))
              (replicate k false) fuel_d new_BitReader
              (IStream (pickle_dump t ++ take n payload)
                 (length (pickle_dump t)))
              new_BitWriter output)
    as (value & r1 & s1 & r' & s' & m & E & L).
  - by rewrite <- bits_of_bytes_app, take_drop, payload_bits_symbols_of.
  - unfold remaining_bits, unread. simpl. by rewrite drop_app_length.
  - unfold symbols_of. by rewrite length_fmap.
  - done.
  - rewrite E, L. simpl. eexists _, m. split; [reflexivity|]. simpl.
    split; [done|].
    unfold symbols_of. rewrite <- fmap_take.
    fold (symbols_of (make_encoding_table t) (take m (unread uncompressed))).
    by rewrite payload_bytes_symbols_of.
Qed.

Lemma decompress_truncated_container_witness :
  exists c payload,
    compress preorder_dump 9 tree_ab
      (IStream [x61; x61; x61; x61; x61; x61; x61; x62] 0) [] = Some c
    /\ out_stream c = preorder_dump tree_ab ++ payload
    /\ forall n p, exists d m,
         decompress preorder_load 8
           (IStream (preorder_dump tree_ab ++ take n payload) p) [] = Some d
         /\ returned d = Ok tt
         /\ out_stream d
            = [] ++ take m [x61; x61; x61; x61; x61; x61; x61; x62].
Proof.
  apply (decompress_truncated_container preorder_dump preorder_load tree_ab
           (IStream [x61; x61; x61; x61; x61; x61; x61; x62] 0) [] 9 8).
  - intros payload. reflexivity.
  - apply list_elem_of_In. simpl. tauto.
  - intros b Hb. apply list_elem_of_In in Hb. apply list_elem_of_In.
    simpl in Hb. repeat (destruct Hb as [<-|Hb]; [simpl; tauto|]). done.
  - simpl. lia.
  - simpl. lia.
Defined.

(** ** [write_tree] then [read_tree] *)

(** X11. [read_tree] gives back the tree that [write_tree] wrote at the
    start of a stream, whatever was written after it and wherever the
    stream is positioned at the call; it prints nothing and leaves the
    stream just after the description, where the payload starts. *)
Theorem read_tree_write_tree
    (pickle_dump : tree -> list byte)
    (pickle_load : istream -> result (option tree) * istream)
    (t : tree) (payload : list byte) (p : nat) :
  (forall rest,
     pickle_load (IStream (pickle_dump t ++ rest) 0)
     = (Ok (Some t),
        IStream (pickle_dump t ++ rest) (length (pickle_dump t)))) ->
  exists tree_stream,
    read_tree pickle_load (IStream (write_tree pickle_dump t [] ++ payload) p)
    = (Ok (Some t), tree_stream, [])
    /\ unread tree_stream = payload.
Proof.
  intros Hpickle. unfold read_tree, write_tree, seek. simpl.
  rewrite Hpickle. eexists. split; [reflexivity|].
  unfold unread. simpl. by rewrite drop_app_length.
Qed.

Lemma read_tree_write_tree_witness :
  exists tree_stream,
    read_tree preorder_load
      (IStream (write_tree preorder_dump tree_ab [] ++ [x58; x00]) 5)
    = (Ok (Some tree_ab), tree_stream, [])
    /\ unread tree_stream = [x58; x00].
Proof.
  apply (read_tree_write_tree preorder_dump preorder_load tree_ab
           [x58; x00] 5).
  intros rest. reflexivity.
Defined.
